(** * Piano-LED-Visualizer: the learning engine ([lib/learnmidi.py]) and the
    flying-notes renderer ([lib/flying_notes_renderer.py]).

    A shallow embedding of the parts of the two classes that decide the
    practice loop, the note gate, the software-note buffer, the mistake
    counter, the renderer's frame selection and its stop/sync operations.

    Conventions of the embedding:
    - numbers that the Python code keeps as [int] are [Z]; numbers it keeps
      as [float] (start/end points, seconds, tempo ratios) are exact
      rationals [Q];
    - the LED strip, the logger and [time.sleep] have no effect on the state
      the claims are about and are left out; the playback port is the list of
      messages sent to it, in order;
    - what other threads do while [learn_midi] runs (keys arriving in the
      MIDI input queue, [restart_loop] and stop requests from the menu, and
      the wall clock) is an explicit environment argument. *)

From Stdlib Require Import ZArith QArith Qround List Bool Lia Permutation Sorted Qabs Lqa.
Import ListNotations.
Open Scope Z_scope.

(** ** MIDI messages (mido) *)

Inductive MsgType := NoteOn | NoteOff | OtherType.

Definition msgtype_eqb (a b : MsgType) : bool :=
  match a, b with
  | NoteOn, NoteOn | NoteOff, NoteOff | OtherType, OtherType => true
  | _, _ => false
  end.

(** A mido message; [time] is the delta time in ticks (merged tracks) or in
    seconds (iteration over a [MidiFile]), see the users below. *)
Record Msg := mkMsg {
  is_meta : bool;
  mtype : MsgType;
  note : Z;
  velocity : Z;
  channel : Z;
  time : Z
}.

(** [msg.type in ("note_on", "note_off")] *)
Definition is_note_msg (m : Msg) : bool :=
  match mtype m with NoteOn | NoteOff => true | OtherType => false end.

(** Velocity as the input loop parses it from [str(msg_in)]:
    [0] for a [note_off], the [velocity=] field otherwise. *)
Definition in_velocity (m : Msg) : Z :=
  match mtype m with NoteOff => 0 | _ => velocity m end.

(** Python list helpers: [x in l], [l.remove(x)] (first occurrence, a
    missing element is ignored by the caller's [except ValueError]) and
    [set(a).issubset(b)]. *)
Definition mem (x : Z) (l : list Z) : bool := existsb (Z.eqb x) l.

Fixpoint remove_first (x : Z) (l : list Z) : list Z :=
  match l with
  | [] => []
  | y :: l' => if Z.eqb x y then l' else y :: remove_first x l'
  end.

Definition issubset (a b : list Z) : bool := forallb (fun x => mem x b) a.

(** [int(q)] on a float: truncation toward zero. *)
Definition py_int (q : Q) : Z := Z.quot (Qnum q) (Zpos (Qden q)).

(** Python slicing [l[a:b]] with Python's treatment of negative and
    out-of-range bounds. *)
Definition py_index (len i : Z) : Z :=
  if i <? 0 then Z.max 0 (len + i) else Z.min i len.

Definition py_slice {A} (l : list A) (a b : Z) : list A :=
  let n := Z.of_nat (length l) in
  let a' := py_index n a in
  let b' := py_index n b in
  firstn (Z.to_nat (b' - a')) (skipn (Z.to_nat a') l).

(** [mido.tick2second(tick, ticks_per_beat, tempo)]
    = [tick * tempo * 1e-6 / ticks_per_beat]. *)
Definition tick2second (tick : Z) (tpb : Z) (tempo : Q) : Q :=
  inject_Z tick * tempo / (inject_Z tpb * inject_Z 1000000).

Module LearnMIDI.

(** The settings [learn_midi] reads (attributes of [LearnMIDI]). *)
Record Config := mkConfig {
  practice : Z;            (* 0 Melody, 1 Rhythm, 2 Listen *)
  hands : Z;               (* 0 Both, 1 Right, 2 Left *)
  mute_hand : Z;           (* 0 Off, 1 Right, 2 Left *)
  show_wrong_notes : Z;
  number_of_mistakes : Z;
  is_loop_active : Z;
  start_point : Q;
  end_point : Q;
  song_tempo : Z;
  ticks_per_beat : Z;
  set_tempo : Z
}.

(** The state [learn_midi] mutates: attributes of [self] and the locals
    [notes_to_press] and [notes_pressed] of the practice thread.
    [next_note_time_set] is whether [self.next_note_time] is not [None];
    [playport] is what was sent to [self.midiports.playport]. *)
Record Engine := mkEngine {
  current_idx : Z;
  pending_software_notes : list Msg;
  notes_to_press : list Z;
  notes_pressed : list Z;
  mistakes_count : Z;
  awaiting_restart_loop : bool;
  is_started_midi : bool;
  next_note_time_set : bool;
  playport : list Msg
}.

Definition set_current_idx (i : Z) (s : Engine) : Engine :=
  mkEngine i (pending_software_notes s) (notes_to_press s) (notes_pressed s)
    (mistakes_count s) (awaiting_restart_loop s) (is_started_midi s)
    (next_note_time_set s) (playport s).
Definition set_pending (p : list Msg) (s : Engine) : Engine :=
  mkEngine (current_idx s) p (notes_to_press s) (notes_pressed s)
    (mistakes_count s) (awaiting_restart_loop s) (is_started_midi s)
    (next_note_time_set s) (playport s).
Definition set_notes_to_press (l : list Z) (s : Engine) : Engine :=
  mkEngine (current_idx s) (pending_software_notes s) l (notes_pressed s)
    (mistakes_count s) (awaiting_restart_loop s) (is_started_midi s)
    (next_note_time_set s) (playport s).
Definition set_notes_pressed (l : list Z) (s : Engine) : Engine :=
  mkEngine (current_idx s) (pending_software_notes s) (notes_to_press s) l
    (mistakes_count s) (awaiting_restart_loop s) (is_started_midi s)
    (next_note_time_set s) (playport s).
Definition set_mistakes (k : Z) (s : Engine) : Engine :=
  mkEngine (current_idx s) (pending_software_notes s) (notes_to_press s)
    (notes_pressed s) k (awaiting_restart_loop s) (is_started_midi s)
    (next_note_time_set s) (playport s).
Definition set_awaiting (b : bool) (s : Engine) : Engine :=
  mkEngine (current_idx s) (pending_software_notes s) (notes_to_press s)
    (notes_pressed s) (mistakes_count s) b (is_started_midi s)
    (next_note_time_set s) (playport s).
Definition set_started (b : bool) (s : Engine) : Engine :=
  mkEngine (current_idx s) (pending_software_notes s) (notes_to_press s)
    (notes_pressed s) (mistakes_count s) (awaiting_restart_loop s) b
    (next_note_time_set s) (playport s).
Definition set_next_note_time (b : bool) (s : Engine) : Engine :=
  mkEngine (current_idx s) (pending_software_notes s) (notes_to_press s)
    (notes_pressed s) (mistakes_count s) (awaiting_restart_loop s)
    (is_started_midi s) b (playport s).

(** [self.midiports.playport.send(m)] *)
Definition send (m : Msg) (s : Engine) : Engine :=
  mkEngine (current_idx s) (pending_software_notes s) (notes_to_press s)
    (notes_pressed s) (mistakes_count s) (awaiting_restart_loop s)
    (is_started_midi s) (next_note_time_set s) (playport s ++ [m]).

(** [for software_note in self.pending_software_notes: send(...)] followed
    by [self.pending_software_notes.clear()] *)
Definition send_pending (s : Engine) : Engine :=
  set_pending [] (mkEngine (current_idx s) (pending_software_notes s)
    (notes_to_press s) (notes_pressed s) (mistakes_count s)
    (awaiting_restart_loop s) (is_started_midi s) (next_note_time_set s)
    (playport s ++ pending_software_notes s)).

(** [restart_loop] *)
Definition restart_loop (s : Engine) : Engine := set_awaiting true s.

(** [handle_wrong_notes] (lines 389-429) without its LED effects. *)
Definition count_wrong (wrong : list Msg) (s : Engine) : Engine :=
  fold_left (fun s msg =>
    if in_velocity msg >? 0 then set_mistakes (mistakes_count s + 1) s else s)
    wrong s.

Definition handle_wrong_notes (cfg : Config) (wrong : list Msg) (s : Engine)
  : Engine :=
  if negb (show_wrong_notes cfg =? 1) then s
  else
    let s1 := count_wrong wrong s in
    if (mistakes_count s1 >? number_of_mistakes cfg)
       && (number_of_mistakes cfg >? 0)
    then restart_loop (set_mistakes 0 s1)
    else s1.

(** Draining [self.midiports.midi_queue] inside the gate (lines 501-528);
    returns the new state and the [wrong_notes] collected. *)
Fixpoint drain (batch : list Msg) (s : Engine) (wrong : list Msg)
  : Engine * list Msg :=
  match batch with
  | [] => (s, wrong)
  | ev :: rest =>
      if negb (is_note_msg ev) then drain rest s wrong
      else
        let n := note ev in
        let v := in_velocity ev in
        if negb (mem n (notes_to_press s)) then
          drain rest (if v >? 0 then set_pending [] s else s) (wrong ++ [ev])
        else if v >? 0 then
          drain rest
            (if mem n (notes_pressed s) then s
             else set_notes_pressed (notes_pressed s ++ [n]) s) wrong
        else
          drain rest (set_notes_pressed (remove_first n (notes_pressed s)) s)
            wrong
  end.

(** One turn of the gate's busy loop as seen from outside: the contents of
    the input queue when it is drained, and whether another thread calls
    [restart_loop] or stops the learning before the next test of the loop
    condition. *)
Record Round := mkRound {
  rd_batch : list Msg;
  rd_restart : bool;
  rd_stop : bool
}.

Definition external (r : Round) (s : Engine) : Engine :=
  let s := if rd_restart r then restart_loop s else s in
  if rd_stop r then set_started false s else s.

Inductive GateResult :=
| GateDone (s : Engine)
| GateWaiting (s : Engine).

(** The gate-wait loop (lines 498-535).  [GateWaiting] is returned when the
    supplied rounds are used up while the loop is still spinning. *)
Fixpoint gate_wait (cfg : Config) (rounds : list Round) (s : Engine)
  : GateResult :=
  if negb (issubset (notes_to_press s) (notes_pressed s)) && is_started_midi s
  then
    if awaiting_restart_loop s then GateDone s
    else
      match rounds with
      | [] => GateWaiting s
      | r :: rs =>
          let (s1, wrong) := drain (rd_batch r) s [] in
          let s2 := handle_wrong_notes cfg wrong s1 in
          gate_wait cfg rs (external r s2)
      end
  else GateDone s.

(** [tDelay] of a song message (line 477): the tempo is scaled by
    [set_tempo] percent. *)
Definition effective_tempo (cfg : Config) : Q :=
  inject_Z (song_tempo cfg) * inject_Z 100 / inject_Z (set_tempo cfg).

Definition tDelay (cfg : Config) (m : Msg) : Q :=
  tick2second (time m) (ticks_per_beat cfg) (effective_tempo cfg).

Definition is_nil {A} (l : list A) : bool :=
  match l with [] => true | _ => false end.

(** Condition of line 488 that opens a gate. *)
Definition gate_condition (cfg : Config) (td : Q) (m : Msg) (s : Engine)
  : bool :=
  negb (Qle_bool td 0) && is_note_msg m
  && negb (is_nil (notes_to_press s)) && (practice cfg =? 0).

(** Lines 537-548, after the gate loop has exited. *)
Definition gate_release (s : Engine) : Engine :=
  let s :=
    if issubset (notes_to_press s) (notes_pressed s)
       && negb (is_nil (pending_software_notes s))
    then send_pending s else s in
  set_notes_to_press [] s.

(** "Check notes to press" (lines 480-548). *)
Definition check_notes (cfg : Config) (rounds : list Round) (td : Q) (m : Msg)
  (s : Engine) : GateResult :=
  if is_meta m then GateDone s
  else
    let s := set_current_idx (current_idx s + 1) s in
    if gate_condition cfg td m s then
      match gate_wait cfg rounds
              (set_next_note_time true (set_notes_pressed [] s)) with
      | GateDone s' => GateDone (gate_release s')
      | GateWaiting s' => GateWaiting s'
      end
    else GateDone s.

(** Condition of lines 597-603: a note the software plays itself. *)
Definition is_software_note (cfg : Config) (m : Msg) : bool :=
  ((hands cfg =? 1) && negb (mute_hand cfg =? 2) && (channel m =? 2))
  || ((hands cfg =? 2) && negb (mute_hand cfg =? 1) && (channel m =? 1))
  || (practice cfg =? 2).

(** "Save notes to press" and "Handle software's notes" (lines 592-614). *)
Definition record_notes (cfg : Config) (m : Msg) (s : Engine) : Engine :=
  if is_meta m then s
  else
    let s :=
      if msgtype_eqb (mtype m) NoteOn && (velocity m >? 0)
         && ((channel m =? hands cfg) || (hands cfg =? 0))
      then set_notes_to_press (notes_to_press s ++ [note m]) s else s in
    if is_software_note cfg m then
      if practice cfg =? 2 then send m s
      else if negb (is_nil (notes_to_press s)) then
        set_pending (pending_software_notes s ++ [m]) s
      else send m s
    else s.

(** Lines 620-626; [clock] is whether [time.time() >= self.next_note_time]. *)
Definition flush_pending (clock : bool) (s : Engine) : Engine :=
  if negb (is_nil (pending_software_notes s)) && is_nil (notes_to_press s)
     && next_note_time_set s && clock
  then set_next_note_time false (send_pending s)
  else s.

(** What happens around one song message: a stop request before the test of
    line 473, the gate rounds, the clock at line 621 and a [restart_loop]
    request before line 628. *)
Record MsgEnv := mkMsgEnv {
  me_stop : bool;
  me_rounds : list Round;
  me_clock : bool;
  me_restart : bool
}.

Definition env_idle : MsgEnv := mkMsgEnv false [] false false.

Inductive StepResult :=
| StepNext (s : Engine)
| StepBreak (s : Engine)
| StepSuspended (s : Engine).

(** One iteration of [for msg in self.song_tracks[start_idx:end_idx]]
    (lines 470-630). *)
Definition step_msg (cfg : Config) (e : MsgEnv) (s : Engine) (m : Msg)
  : StepResult :=
  let s := if me_stop e then set_started false s else s in
  if negb (is_started_midi s) then StepBreak s
  else
    match check_notes cfg (me_rounds e) (tDelay cfg m) m s with
    | GateWaiting s' => StepSuspended s'
    | GateDone s1 =>
        let s2 := record_notes cfg m s1 in
        let s3 := flush_pending (me_clock e) s2 in
        let s4 := if me_restart e then restart_loop s3 else s3 in
        if awaiting_restart_loop s4 then StepBreak (set_awaiting false s4)
        else StepNext s4
    end.

Inductive PassResult :=
| PassEnd (s : Engine)
| PassBreak (s : Engine)
| PassSuspended (s : Engine).

Fixpoint run_pass (cfg : Config) (msgs : list Msg) (envs : list MsgEnv)
  (s : Engine) : PassResult :=
  match msgs with
  | [] => PassEnd s
  | m :: ms =>
      match step_msg cfg (hd env_idle envs) s m with
      | StepNext s' => run_pass cfg ms (tl envs) s'
      | StepBreak s' => PassBreak s'
      | StepSuspended s' => PassSuspended s'
      end
  end.

(** [start_idx] and [end_idx] (lines 461-462). *)
Definition slice_start (cfg : Config) (n : Z) : Z :=
  py_int (start_point cfg * inject_Z n / inject_Z 100).
Definition slice_end (cfg : Config) (n : Z) : Z :=
  py_int (end_point cfg * inject_Z n / inject_Z 100).

Definition song_slice (cfg : Config) (song : list Msg) : list Msg :=
  let n := Z.of_nat (length song) in
  py_slice song (slice_start cfg n) (slice_end cfg n).

(** Entering the body of [while keep_looping] (lines 459-468). *)
Definition enter_pass (cfg : Config) (song : list Msg) (s : Engine) : Engine :=
  set_current_idx (slice_start cfg (Z.of_nat (length song)))
    (set_notes_to_press [] s).

Inductive RunResult :=
| RunFinished (s : Engine)
| RunSuspended (s : Engine)
| RunLooping (s : Engine).

(** [while keep_looping] (lines 453-638), one environment per pass; the
    first component lists the state at each entry into the loop body. *)
Fixpoint learn_loop (cfg : Config) (song : list Msg)
  (passes : list (list MsgEnv)) (s : Engine) : list Engine * RunResult :=
  match passes with
  | [] => ([], RunLooping s)
  | envs :: rest =>
      let s0 := enter_pass cfg song s in
      let fin := fun s' =>
        if negb (is_loop_active cfg =? 0) && is_started_midi s' then
          let (es, r) := learn_loop cfg song rest s' in (s0 :: es, r)
        else ([s0], RunFinished s') in
      match run_pass cfg (song_slice cfg song) envs s0 with
      | PassSuspended s' => ([s0], RunSuspended s')
      | PassEnd s' => fin s'
      | PassBreak s' => fin s'
      end
  end.

End LearnMIDI.

(** ** Timelines *)

Module Timeline.

(** [load_midi] (lines 340-345): iterating a [mido.MidiFile] yields messages
    whose [time] is the delta in seconds; [notes_time] accumulates the
    deltas of the non-meta messages. *)
Record SecMsg := mkSecMsg {
  sec_is_meta : bool;
  sec_time : Q
}.

Fixpoint notes_time_from (time_passed : Q) (msgs : list SecMsg) : list Q :=
  match msgs with
  | [] => []
  | m :: ms =>
      if sec_is_meta m then notes_time_from time_passed ms
      else
        let t := (time_passed + sec_time m)%Q in
        t :: notes_time_from t ms
  end.

Definition notes_time (msgs : list SecMsg) : list Q := notes_time_from 0%Q msgs.

End Timeline.

(** ** The flying-notes renderer *)

Module FlyingNotes.

Inductive Hand := HandLeft | HandRight.

(** An entry of [self.piano_keys]. *)
Record PianoKey := mkPianoKey {
  key_midi_note : Z;
  x_position : Z;
  key_is_black : bool;
  key_width : Z
}.

Definition is_black_pc (k : Z) : bool :=
  (k =? 1) || (k =? 3) || (k =? 6) || (k =? 8) || (k =? 10).

Definition black_key_offset (k : Z) : Z :=
  if k =? 1 then -6 else if k =? 3 then 6 else if k =? 6 then -8
  else if k =? 8 then 0 else 8.

(** The loop of [_generate_piano_layout] over [n] notes from [midi_note]. *)
Fixpoint layout_from (n : nat) (midi_note white_key_count : Z) : list PianoKey :=
  match n with
  | O => []
  | S n' =>
      let note_in_octave := midi_note mod 12 in
      if negb (is_black_pc note_in_octave) then
        mkPianoKey midi_note (white_key_count * 20) false 20
          :: layout_from n' (midi_note + 1) (white_key_count + 1)
      else
        mkPianoKey midi_note
          ((white_key_count - 1) * 20 + 20 / 2 + black_key_offset note_in_octave)
          true 12
          :: layout_from n' (midi_note + 1) white_key_count
  end.

(** [range(21, 109)] *)
Definition piano_keys : list PianoKey := layout_from 88 21 0.

(** [next((k for k in self.piano_keys if k['midi_note'] == n), None)] *)
Definition find_key (n : Z) : option PianoKey :=
  find (fun k => key_midi_note k =? n) piano_keys.

(** A note dictionary of [notes_buffer]. *)
Record NoteData := mkNoteData {
  nd_midi_note : Z;
  nd_channel : Z;
  nd_velocity : Z;
  nd_start_time : Q;
  nd_hand : Hand
}.

Record Settings := mkSettings {
  enabled : bool;
  speed : Q;
  note_height : Q;
  keyboard_height : Q;
  canvas_height : Q;
  fall_distance : Q
}.

(** A WebSocket client: its identity and whether [client.send] succeeds. *)
Record Client := mkClient { client_id : Z; client_ok : bool }.

Inductive Broadcast :=
| BStop
| BFrame (t : Q).

Record Renderer := mkRenderer {
  is_active : bool;
  has_animation_thread : bool;
  notes_buffer : list NoteData;
  current_time : Q;
  start_time : Q;
  settings : Settings;
  websocket_clients : list Client;
  delivered : list (Z * Broadcast)
}.

(** [_broadcast_to_clients] *)
Definition broadcast_to_clients (d : Broadcast) (r : Renderer) : Renderer :=
  match websocket_clients r with
  | [] => r
  | cs =>
      mkRenderer (is_active r) (has_animation_thread r) (notes_buffer r)
        (current_time r) (start_time r) (settings r)
        (filter client_ok cs)
        (delivered r
           ++ map (fun c => (client_id c, d)) (filter client_ok cs))
  end.

(** [stop_animation]: the thread join has no effect on this state. *)
Definition stop_animation (r : Renderer) : Renderer :=
  let r := mkRenderer false (has_animation_thread r) [] (current_time r)
             (start_time r) (settings r) (websocket_clients r) (delivered r) in
  broadcast_to_clients BStop r.

(** [sync_with_learn_midi] *)
Definition sync_with_learn_midi (r : Renderer) (current_position : Q)
  : Renderer :=
  if is_active r then
    mkRenderer (is_active r) (has_animation_thread r) (notes_buffer r)
      current_position (start_time r) (settings r) (websocket_clients r)
      (delivered r)
  else r.

(** An entry of [visible_notes] ([color] is left out: it is looked up in
    [LearnMIDI]'s colour tables and plays no part in the selection). *)
Record VisibleNote := mkVisibleNote {
  v_midi_note : Z;
  v_x_position : Z;
  v_y_position : Q;
  v_width : Z;
  v_height : Q;
  v_hand : Hand;
  v_velocity : Z;
  v_is_black_key : bool
}.

Record Frame := mkFrame {
  fr_notes : list VisibleNote;
  fr_piano_keys : list PianoKey;
  fr_settings : Settings
}.

Definition lookahead_time (r : Renderer) : Q :=
  (fall_distance (settings r) / 100)%Q.

Definition in_window (r : Renderer) (nd : NoteData) : bool :=
  Qle_bool (current_time r) (nd_start_time nd)
  && Qle_bool (nd_start_time nd) (current_time r + lookahead_time r).

Definition y_position (r : Renderer) (nd : NoteData) : Q :=
  (canvas_height (settings r) - keyboard_height (settings r)
   - ((nd_start_time nd - current_time r) / lookahead_time r
      * fall_distance (settings r)))%Q.

Definition visible_of (r : Renderer) (nd : NoteData) (k : PianoKey)
  : VisibleNote :=
  mkVisibleNote (nd_midi_note nd) (x_position k) (y_position r nd)
    (key_width k) (note_height (settings r)) (nd_hand nd) (nd_velocity nd)
    (key_is_black k).

(** The loop of [_generate_frame_data]; [None] when Python raises
    [ZeroDivisionError] (a note in the window while the lookahead is 0). *)
Fixpoint visible_notes (r : Renderer) (buf : list NoteData)
  : option (list VisibleNote) :=
  match buf with
  | [] => Some []
  | nd :: rest =>
      if in_window r nd then
        if Qeq_bool (lookahead_time r) 0 then None
        else
          match visible_notes r rest with
          | None => None
          | Some vs =>
              match find_key (nd_midi_note nd) with
              | Some k => Some (visible_of r nd k :: vs)
              | None => Some vs
              end
          end
      else visible_notes r rest
  end.

Definition generate_frame_data (r : Renderer) : option Frame :=
  match visible_notes r (notes_buffer r) with
  | Some vs => Some (mkFrame vs piano_keys (settings r))
  | None => None
  end.

(** [deque(maxlen=1000).append] *)
Definition deque_append {A} (maxlen : nat) (l : list A) (x : A) : list A :=
  if Nat.ltb (length l) maxlen then l ++ [x] else tl l ++ [x].

(** The loop of [_load_notes_from_midi] over [learnmidi.song_tracks], whose
    [time] is in ticks; [current_time] is the running tick count. *)
Fixpoint load_notes_loop (tempo tpb : Z) (current_time : Z)
  (buf : list NoteData) (song : list Msg) : list NoteData :=
  match song with
  | [] => buf
  | m :: ms =>
      if is_meta m then load_notes_loop tempo tpb current_time buf ms
      else
        let ct := current_time + time m in
        let buf :=
          if msgtype_eqb (mtype m) NoteOn && (velocity m >? 0) then
            deque_append 1000 buf
              (mkNoteData (note m) (channel m) (velocity m)
                 (inject_Z ct * inject_Z tempo
                  / (inject_Z tpb * inject_Z 1000000))%Q
                 (if channel m =? 1 then HandRight else HandLeft))
          else buf in
        load_notes_loop tempo tpb ct buf ms
  end.

Definition load_notes_from_midi (tempo tpb : Z) (song : list Msg)
  (buf : list NoteData) : list NoteData :=
  match song with
  | [] => buf
  | _ => load_notes_loop tempo tpb 0 [] song
  end.

End FlyingNotes.

(** ** Readings of the specification

    Definitions that follow the specification's words, to be compared with
    the embedded code. *)

Module SpecSide.
Import LearnMIDI.

(** "note-ons with velocity > 0, minus subsequent note-offs": whether note
    [n] is held after the input events [evs], given whether it was held
    before them. *)
Definition held_after (n : Z) (evs : list Msg) (held0 : bool) : bool :=
  fold_left (fun b ev =>
    if is_note_msg ev && (note ev =? n) then in_velocity ev >? 0 else b)
    evs held0.

(** Every note to press is held after [evs] (starting from nothing held). *)
Definition all_held (to_press : list Z) (evs : list Msg) : bool :=
  forallb (fun n => held_after n evs false) to_press.

(** The input events delivered in the first [k] rounds of a gate. *)
Definition events_upto (rounds : list Round) (k : nat) : list Msg :=
  concat (map rd_batch (firstn k rounds)).

(** Wrong notes that count as mistakes: those struck with velocity > 0. *)
Definition nb_strikes (wrong : list Msg) : Z :=
  Z.of_nat (length (filter (fun ev => in_velocity ev >? 0) wrong)).

(** An input event the gate treats as a wrong key struck: a note message
    with velocity > 0 for a note that is not to be pressed. *)
Definition wrong_strike (to_press : list Z) (ev : Msg) : bool :=
  is_note_msg ev && negb (mem (note ev) to_press) && (in_velocity ev >? 0).

(** A pure key press. *)
Definition is_press (ev : Msg) : bool :=
  msgtype_eqb (mtype ev) NoteOn && (velocity ev >? 0).

(** The state the specification expects when the practice loop is
    (re-)entered. *)
Definition entry_clean (cfg : Config) (song : list Msg) (s : Engine) : Prop :=
  current_idx s = slice_start cfg (Z.of_nat (length song))
  /\ pending_software_notes s = [] /\ notes_to_press s = []
  /\ notes_pressed s = [].

(** Absolute seconds of the note-ons of a merged track, accumulating
    [ticks * tempo / (ticks_per_beat * 1_000_000)] over every message of
    the sequence. *)
Fixpoint spec_note_times (tempo tpb : Z) (acc : Q) (song : list Msg)
  : list Q :=
  match song with
  | [] => []
  | m :: ms =>
      let acc := (acc + tick2second (time m) tpb (inject_Z tempo))%Q in
      if negb (is_meta m) && msgtype_eqb (mtype m) NoteOn && (velocity m >? 0)
      then acc :: spec_note_times tempo tpb acc ms
      else spec_note_times tempo tpb acc ms
  end.

(** The same sum restricted to the non-meta messages. *)
Fixpoint nonmeta_note_times (tempo tpb : Z) (acc : Q) (song : list Msg)
  : list Q :=
  match song with
  | [] => []
  | m :: ms =>
      if is_meta m then nonmeta_note_times tempo tpb acc ms
      else
        let acc := (acc + tick2second (time m) tpb (inject_Z tempo))%Q in
        if msgtype_eqb (mtype m) NoteOn && (velocity m >? 0)
        then acc :: nonmeta_note_times tempo tpb acc ms
        else nonmeta_note_times tempo tpb acc ms
  end.

(** The last [n] elements of a list. *)
Definition keep_last {A} (n : nat) (l : list A) : list A :=
  skipn (length l - n) l.

End SpecSide.

(** ** Concrete scenarios *)

Module Scenarios.
Import LearnMIDI.

(** Melody practice of the right hand (channel 1); the left hand (channel 2)
    is played by the software; wrong notes shown, three mistakes allowed,
    whole song, 500000 us per beat, 480 ticks per beat, tempo 100 %. *)
Definition cfg_melody_right : Config :=
  mkConfig 0 1 0 1 3 1 0%Q 100%Q 500000 480 100.

Definition cfg_no_loop : Config :=
  mkConfig 0 1 0 1 3 0 0%Q 100%Q 500000 480 100.

Definition cfg_hidden_mistakes : Config :=
  mkConfig 0 1 0 0 3 1 0%Q 100%Q 500000 480 100.

Definition engine0 : Engine := mkEngine 0 [] [] [] 0 false true false [].

Definition on (n ch t : Z) : Msg := mkMsg false NoteOn n 64 ch t.
Definition off (n ch t : Z) : Msg := mkMsg false NoteOff n 0 ch t.

(** The user's C4, the software's C3 at the same instant, then the user's
    D4 ten ticks later. *)
Definition song_a : list Msg := [on 60 1 0; on 48 2 0; on 62 1 10].

(** The same, but the user releases C4 instead of striking D4. *)
Definition song_b : list Msg := [on 60 1 0; on 48 2 0; off 60 1 10].

Definition round_restart : Round := mkRound [] true false.
Definition round_keys (evs : list Msg) : Round := mkRound evs false false.

(** The state after the first two messages of [song_b] when the third
    opens its gate. *)
Definition gate_entry (s : Engine) : Engine :=
  set_next_note_time true (set_notes_pressed [] (set_current_idx (current_idx s + 1) s)).

(** Four rounds, each bringing one wrong key (G4, note 67). *)
Definition four_wrong_rounds : list Round :=
  [round_keys [on 67 1 0]; round_keys [on 67 1 0];
   round_keys [on 67 1 0]; round_keys [on 67 1 0]].

(** A gate waiting for C4 after three mistakes. *)
Definition engine_three_mistakes : Engine :=
  mkEngine 3 [] [60] [] 3 false true true [].

(** A gate waiting for C4 and E4 (notes 60 and 64). *)
Definition engine_gate_60_64 : Engine :=
  mkEngine 3 [] [60; 64] [] 0 false true true [].

Definition env_gate (rs : list Round) (clock : bool) : MsgEnv :=
  mkMsgEnv false rs clock false.

(** A meta message (say a marker) one beat after the start,
    followed at the same instant by the first note. *)
Definition song_meta_first : list Msg :=
  [mkMsg true OtherType 0 0 0 480; on 60 1 0].

(** Renderer scenarios: a 2-second lookahead ([fall_distance = 200]) at
    [current_time = 5]; C4 starts at 6.5 s and D4 at 8 s. *)
Definition settings_2s : FlyingNotes.Settings :=
  FlyingNotes.mkSettings true 1 20 80 600 200.

Definition note_at (n : Z) (t : Q) : FlyingNotes.NoteData :=
  FlyingNotes.mkNoteData n 1 64 t FlyingNotes.HandRight.

Definition renderer_at_5 : FlyingNotes.Renderer :=
  FlyingNotes.mkRenderer true true [note_at 60 (13 # 2); note_at 62 8]
    5 0 settings_2s [] [].

(** A stopped renderer with one connected client. *)
Definition renderer_stopped : FlyingNotes.Renderer :=
  FlyingNotes.mkRenderer false true [] 0 0 settings_2s
    [FlyingNotes.mkClient 1 true] [].

End Scenarios.

(** ** Song loading and note prediction ([lib/learnmidi.py]) *)

Module LearnAux.
Import LearnMIDI.



(** The body of [for msg in mid.tracks[k]] in [load_midi] (lines 332-335):
    the message is updated in place. *)
Definition assign_msg (ch : Z) (msg : Msg) : Msg :=
  if negb (is_meta msg) && is_note_msg msg then
    mkMsg (is_meta msg) (mtype msg) (note msg)
      (if msgtype_eqb (mtype msg) NoteOff then 0 else velocity msg)
      ch (time msg)
  else msg.

(** [offset] of lines 326-329. *)
Definition track_offset (tracks : list (list Msg)) : Z :=
  if Nat.eqb (length tracks) 2 then 1 else 0.

(** [for k in range(len(mid.tracks))] from track [k]. *)
Fixpoint assign_from (k offset : Z) (tracks : list (list Msg))
  : list (list Msg) :=
  match tracks with
  | [] => []
  | t :: ts => map (assign_msg (k + offset)) t :: assign_from (k + 1) offset ts
  end.

Definition assign_channels (tracks : list (list Msg)) : list (list Msg) :=
  assign_from 0 (track_offset tracks) tracks.

(** [msg.channel = k + offset] (line 333) goes through mido's
    [check_channel], which raises [ValueError] unless [0 <= ch <= 15];
    [load_midi] catches it (lines 356-359, [loading = 5]) and no song is
    loaded: [None]. *)
Definition channel_in_range (ch : Z) : bool := (0 <=? ch) && (ch <=? 15).

Fixpoint assign_track_checked (ch : Z) (track : list Msg) : option (list Msg) :=
  match track with
  | [] => Some []
  | msg :: rest =>
      if negb (is_meta msg) && is_note_msg msg && negb (channel_in_range ch)
      then None
      else
        match assign_track_checked ch rest with
        | Some rest' => Some (assign_msg ch msg :: rest')
        | None => None
        end
  end.

Fixpoint assign_from_checked (k offset : Z) (tracks : list (list Msg))
  : option (list (list Msg)) :=
  match tracks with
  | [] => Some []
  | t :: ts =>
      match assign_track_checked (k + offset) t with
      | None => None
      | Some t' =>
          match assign_from_checked (k + 1) offset ts with
          | Some ts' => Some (t' :: ts')
          | None => None
          end
      end
  end.

Definition assign_channels_checked (tracks : list (list Msg))
  : option (list (list Msg)) :=
  assign_from_checked 0 (track_offset tracks) tracks.

(** [mido.tick2second] as mido writes it,
    [scale = tempo * 1e-6 / ticks_per_beat; return tick * scale]:
    [ZeroDivisionError] ([None]) when [ticks_per_beat] is 0. *)
Definition mido_tick2second (tick tpb : Z) (tempo : Q) : option Q :=
  if tpb =? 0 then None
  else Some (inject_Z tick * (tempo * (1 # 1000000) / inject_Z tpb))%Q.

(** Line 477: [mido.tick2second(msg.time, self.ticks_per_beat,
    self.song_tempo * 100 / self.set_tempo)]; the tempo division raises
    first when [set_tempo] is 0. *)
Definition tDelay_py (cfg : Config) (m : Msg) : option Q :=
  if set_tempo cfg =? 0 then None
  else mido_tick2second (time m) (ticks_per_beat cfg)
         (inject_Z (song_tempo cfg) * inject_Z 100 / inject_Z (set_tempo cfg))%Q.

(** [numpy.argmin] of [abs(array - target)]: the first index of the least
    value. *)
Fixpoint argmin_loop (best_i : nat) (best : Q) (i : nat) (l : list Q)
  (target : Q) : nat :=
  match l with
  | [] => best_i
  | x :: xs =>
      let d := Qabs (x - target) in
      if negb (Qle_bool best d) then argmin_loop i d (S i) xs target
      else argmin_loop best_i best (S i) xs target
  end.

(** [find_nearest] (lines 18-21); [None] is the [ValueError] numpy raises
    for an empty array. *)
Definition find_nearest (array : list Q) (target : Q) : option nat :=
  match array with
  | [] => None
  | a :: rest => Some (argmin_loop 0 (Qabs (a - target)) 1 rest target)
  end.

Inductive NoteType := White | Black.

(** [get_note_type] (lines 155-160); Python's [%] is [Z.modulo]. *)
Definition get_note_type (n : Z) : NoteType :=
  if mem (n mod 12) [1; 3; 6; 8; 10] then Black else White.

(** What [predict_future_notes] does: nothing, light up a list of notes
    (through [light_up_predicted_future_notes]), or raise
    [ZeroDivisionError] in [tick2second]. *)
Inductive Prediction :=
| NotLit
| Lit (notes : list Msg)
| Raised.

(** [mido.tick2second] divides by [ticks_per_beat], and the tempo argument
    divides by [set_tempo]. *)
Definition tdelay_raises (cfg : Config) : bool :=
  (set_tempo cfg =? 0) || (ticks_per_beat cfg =? 0).

(** The loop of [predict_future_notes] (lines 369-382). *)
Fixpoint predict_loop (cfg : Config) (notes_to_press : list Z)
  (predicted : list Msg) (msgs : list Msg) : Prediction :=
  match msgs with
  | [] => NotLit
  | msg :: rest =>
      if tdelay_raises cfg then Raised
      else if negb (is_meta msg) && negb (Qle_bool (tDelay cfg msg) 0)
              && is_note_msg msg && negb (is_nil predicted)
              && (practice cfg =? 0)
      then Lit predicted
      else
        let predicted :=
          if msgtype_eqb (mtype msg) NoteOn && (velocity msg >? 0)
             && negb (mem (note msg) notes_to_press)
          then predicted ++ [msg] else predicted in
        predict_loop cfg notes_to_press predicted rest
  end.

(** [predict_future_notes] (lines 362-383). *)
Definition predict_future_notes (show_future_notes : Z) (cfg : Config)
  (song_tracks : list Msg) (starting_note ending_note : Z)
  (notes_to_press : list Z) : Prediction :=
  if negb (show_future_notes =? 1) then NotLit
  else predict_loop cfg notes_to_press []
         (py_slice song_tracks starting_note ending_note).

End LearnAux.

(** ** Renderer life cycle ([lib/flying_notes_renderer.py]) *)

Module RendererOps.
Import FlyingNotes.

Definition set_clients (cs : list Client) (r : Renderer) : Renderer :=
  mkRenderer (is_active r) (has_animation_thread r) (notes_buffer r)
    (current_time r) (start_time r) (settings r) cs (delivered r).

Definition set_settings (st : Settings) (r : Renderer) : Renderer :=
  mkRenderer (is_active r) (has_animation_thread r) (notes_buffer r)
    (current_time r) (start_time r) st (websocket_clients r) (delivered r).

Definition client_eqb (a b : Client) : bool :=
  (client_id a =? client_id b) && Bool.eqb (client_ok a) (client_ok b).

(** [add_websocket_client]: [set.add]. *)
Definition add_websocket_client (c : Client) (r : Renderer) : Renderer :=
  if existsb (client_eqb c) (websocket_clients r) then r
  else set_clients (websocket_clients r ++ [c]) r.

(** [remove_websocket_client]: [set.discard]. *)
Definition remove_websocket_client (c : Client) (r : Renderer) : Renderer :=
  set_clients (filter (fun d => negb (client_eqb c d)) (websocket_clients r)) r.

(** What the renderer reads from [self.learnmidi] when it loads notes. *)
Record SongSource := mkSongSource {
  src_song_tempo : Z;
  src_ticks_per_beat : Z;
  src_song_tracks : list Msg
}.

(** [_load_notes_from_midi] raises [ZeroDivisionError] at the first loaded
    note when [ticks_per_beat] is 0. *)
Definition load_raises (src : SongSource) : bool :=
  (src_ticks_per_beat src =? 0)
  && existsb (fun m => negb (is_meta m) && msgtype_eqb (mtype m) NoteOn
                       && (velocity m >? 0)) (src_song_tracks src).

(** [start_animation] (lines 93-110); [now] is [time.time()], the second
    component whether an exception leaves the method (the buffer has then
    been cleared and no thread is started). *)
Definition start_animation (src : SongSource) (now : Q) (r : Renderer)
  : Renderer * bool :=
  if is_active r || negb (enabled (settings r)) then (r, false)
  else if load_raises src then
    (mkRenderer true (has_animation_thread r) [] 0 now (settings r)
       (websocket_clients r) (delivered r), true)
  else
    (mkRenderer true true
       (load_notes_from_midi (src_song_tempo src) (src_ticks_per_beat src)
          (src_song_tracks src) (notes_buffer r))
       0 now (settings r) (websocket_clients r) (delivered r), false).

(** The keys of [new_settings] that are present, for [settings.update]. *)
Record SettingsUpdate := mkSettingsUpdate {
  upd_enabled : option bool;
  upd_speed : option Q;
  upd_note_height : option Q;
  upd_keyboard_height : option Q;
  upd_canvas_height : option Q;
  upd_fall_distance : option Q
}.

Definition or_keep {A} (o : option A) (a : A) : A :=
  match o with Some b => b | None => a end.

(** [self.settings.update(new_settings)] *)
Definition merge_settings (u : SettingsUpdate) (st : Settings) : Settings :=
  mkSettings (or_keep (upd_enabled u) (enabled st))
    (or_keep (upd_speed u) (speed st))
    (or_keep (upd_note_height u) (note_height st))
    (or_keep (upd_keyboard_height u) (keyboard_height st))
    (or_keep (upd_canvas_height u) (canvas_height st))
    (or_keep (upd_fall_distance u) (fall_distance st)).

(** [update_settings] (lines 244-259); saving to the user settings has no
    effect on the renderer. *)
Definition update_settings (src : SongSource) (now : Q) (u : SettingsUpdate)
  (r : Renderer) : Renderer * bool :=
  let r := set_settings (merge_settings u (settings r)) r in
  if is_active r then
    let r := stop_animation r in
    if enabled (settings r) then start_animation src now r else (r, false)
  else (r, false).

(** One iteration of [_animation_loop] (lines 160-179) at wall-clock time
    [now]; the second component is whether [_generate_frame_data] raised,
    which ends the animation thread. *)
Definition animation_step (now : Q) (r : Renderer) : Renderer * bool :=
  if is_active r then
    let r := mkRenderer (is_active r) (has_animation_thread r) (notes_buffer r)
               ((now - start_time r) * speed (settings r))%Q (start_time r)
               (settings r) (websocket_clients r) (delivered r) in
    match generate_frame_data r with
    | Some _ => (broadcast_to_clients (BFrame (current_time r)) r, false)
    | None => (r, true)
    end
  else (r, false).

(** The public operations, as the web interface and the WebSocket handler
    call them, and one frame of the animation thread. *)
Inductive Op :=
| OpAddClient (c : Client)
| OpRemoveClient (c : Client)
| OpStart (now : Q)
| OpStop
| OpSync (position : Q)
| OpUpdate (u : SettingsUpdate) (now : Q)
| OpFrame (now : Q).

Definition apply_op (src : SongSource) (op : Op) (r : Renderer) : Renderer :=
  match op with
  | OpAddClient c => add_websocket_client c r
  | OpRemoveClient c => remove_websocket_client c r
  | OpStart now => fst (start_animation src now r)
  | OpStop => stop_animation r
  | OpSync p => sync_with_learn_midi r p
  | OpUpdate u now => fst (update_settings src now u r)
  | OpFrame now => fst (animation_step now r)
  end.

Definition run_ops (src : SongSource) (ops : list Op) (r : Renderer)
  : Renderer :=
  fold_left (fun r op => apply_op src op r) ops r.

(** The state [__init__] leaves (lines 11-36). *)
Definition init_renderer (st : Settings) : Renderer :=
  mkRenderer false false [] 0 0 st [] [].

End RendererOps.

(** ** Reference descriptions used by the statements below *)

Module ExtraSpec.
Import LearnMIDI.

(** A message that may trigger the lighting of line 373 (apart from the
    test on the list collected so far and the practice mode). *)
Definition delayed_note (cfg : Config) (m : Msg) : bool :=
  negb (is_meta m) && negb (Qle_bool (tDelay cfg m) 0) && is_note_msg m.

(** The note-ons of [msgs] that line 378 collects. *)
Definition collected (notes_to_press : list Z) (msgs : list Msg) : list Msg :=
  filter (fun m => msgtype_eqb (mtype m) NoteOn && (velocity m >? 0)
                   && negb (mem (note m) notes_to_press)) msgs.

End ExtraSpec.

(** * Properties *)

Import LearnMIDI FlyingNotes Timeline SpecSide Scenarios LearnAux RendererOps ExtraSpec.

(** ** Practice loop re-entry *)

(** C1 (counterexample): a software note deferred before a manual
    [restart_loop] is still in [pending_software_notes] when the loop is
    re-entered: the second entry state is not clean. *)
Lemma restart_keeps_pending :
  ~ Forall (entry_clean cfg_melody_right song_a)
      (fst (learn_loop cfg_melody_right song_a
              [[env_idle; env_idle; env_gate [round_restart] false]; []]
              engine0)).
Proof.
  vm_compute. intros H.
  inversion H as [|e1 es _ Hrest]; subst.
  inversion Hrest as [|e2 es' [_ [Hp _]] _]; subst.
  discriminate Hp.
Qed.

Lemma enter_pass_fields cfg song s :
  current_idx (enter_pass cfg song s) = slice_start cfg (Z.of_nat (length song))
  /\ notes_to_press (enter_pass cfg song s) = []
  /\ pending_software_notes (enter_pass cfg song s) = pending_software_notes s
  /\ notes_pressed (enter_pass cfg song s) = notes_pressed s.
Proof. repeat split. Qed.

(** One pass of [learn_loop]: the entry state, then the entries of the
    following passes when the loop goes round again. *)
Lemma learn_loop_entries_cons cfg song envs rest s :
  fst (learn_loop cfg song (envs :: rest) s)
  = enter_pass cfg song s
    :: match run_pass cfg (song_slice cfg song) envs (enter_pass cfg song s) with
       | PassSuspended _ => []
       | PassEnd s' | PassBreak s' =>
           if negb (is_loop_active cfg =? 0) && is_started_midi s'
           then fst (learn_loop cfg song rest s') else []
       end.
Proof.
  simpl. destruct (run_pass _ _ _ _) as [s'|s'|s']; try reflexivity;
  (destruct (negb (is_loop_active cfg =? 0) && is_started_midi s'); [|reflexivity];
   destruct (learn_loop cfg song rest s'); reflexivity).
Qed.

Lemma learn_loop_entries_enter cfg song passes : forall s e,
  In e (fst (learn_loop cfg song passes s)) -> exists s', e = enter_pass cfg song s'.
Proof.
  induction passes as [|envs rest IH]; intros s e Hin; [contradiction|].
  rewrite learn_loop_entries_cons in Hin. destruct Hin as [<-|Hin]; [eauto|].
  destruct (run_pass _ _ _ _) as [s'|s'|s'];
    [destruct (_ && _); [eapply IH; exact Hin|contradiction]
    |destruct (_ && _); [eapply IH; exact Hin|contradiction]
    |contradiction].
Qed.

(** C1 (as amended): the first entry into the loop body is [enter_pass] of
    the engine [learn_midi] starts from; every later entry, after a pass
    that ran to its end or broke on a restart request, is [enter_pass] of
    the state that pass ended in: [current_idx] is the slice start and
    [notes_to_press] is empty, while [pending_software_notes] and
    [notes_pressed] are carried over unchanged from the end of the previous
    pass. *)
Theorem learn_loop_entry_state cfg song passes s :
  let es := fst (learn_loop cfg song passes s) in
  (forall e, hd_error es = Some e -> e = enter_pass cfg song s)
  /\ (forall i e e', nth_error es i = Some e -> nth_error es (S i) = Some e' ->
        exists envs s',
          nth_error passes i = Some envs
          /\ (run_pass cfg (song_slice cfg song) envs e = PassEnd s'
              \/ run_pass cfg (song_slice cfg song) envs e = PassBreak s')
          /\ e' = enter_pass cfg song s'
          /\ current_idx e' = slice_start cfg (Z.of_nat (length song))
          /\ notes_to_press e' = []
          /\ pending_software_notes e' = pending_software_notes s'
          /\ notes_pressed e' = notes_pressed s')
  /\ (forall e, In e es ->
        current_idx e = slice_start cfg (Z.of_nat (length song))
        /\ notes_to_press e = []).
Proof.
  intros es. subst es. split; [|split].
  - destruct passes as [|envs rest]; intros e He; [discriminate|].
    rewrite learn_loop_entries_cons in He. injection He as <-. reflexivity.
  - revert s. induction passes as [|envs rest IH]; intros s i e e' He He';
      [destruct i; discriminate|].
    rewrite learn_loop_entries_cons in He, He'.
    destruct (run_pass cfg (song_slice cfg song) envs (enter_pass cfg song s))
      as [s'|s'|s'] eqn:Hr;
    [| |destruct i as [|[|i]]; discriminate].
    + destruct (negb (is_loop_active cfg =? 0) && is_started_midi s');
        [|destruct i as [|[|i]]; discriminate].
      destruct i as [|i].
      * injection He as <-. cbn [nth_error] in He'.
        destruct rest as [|envs' rest']; [discriminate|].
        rewrite learn_loop_entries_cons in He'. injection He' as <-.
        exists envs, s'. split; [reflexivity|]. split; [left; exact Hr|].
        split; [reflexivity|]. apply enter_pass_fields.
      * cbn [nth_error] in He, He'.
        destruct (IH s' i e e' He He') as (envs0 & s0 & H).
        exists envs0, s0. exact H.
    + destruct (negb (is_loop_active cfg =? 0) && is_started_midi s');
        [|destruct i as [|[|i]]; discriminate].
      destruct i as [|i].
      * injection He as <-. cbn [nth_error] in He'.
        destruct rest as [|envs' rest']; [discriminate|].
        rewrite learn_loop_entries_cons in He'. injection He' as <-.
        exists envs, s'. split; [reflexivity|]. split; [right; exact Hr|].
        split; [reflexivity|]. apply enter_pass_fields.
      * cbn [nth_error] in He, He'.
        destruct (IH s' i e e' He He') as (envs0 & s0 & H).
        exists envs0, s0. exact H.
  - intros e Hin. destruct (learn_loop_entries_enter _ _ _ _ _ Hin) as [s' ->].
    split; reflexivity.
Qed.

(** The restart run of [restart_keeps_pending]: the second entry carries
    the software note deferred in the first pass. *)
Lemma learn_loop_entry_state_witness :
  exists e e',
    nth_error (fst (learn_loop cfg_melody_right song_a
                      [[env_idle; env_idle; env_gate [round_restart] false]; []]
                      engine0)) 0 = Some e
    /\ nth_error (fst (learn_loop cfg_melody_right song_a
                      [[env_idle; env_idle; env_gate [round_restart] false]; []]
                      engine0)) 1 = Some e'
    /\ pending_software_notes e' <> []
    /\ exists envs s',
         nth_error [[env_idle; env_idle; env_gate [round_restart] false]; []] 0
           = Some envs
         /\ (run_pass cfg_melody_right (song_slice cfg_melody_right song_a) envs e
               = PassEnd s'
             \/ run_pass cfg_melody_right (song_slice cfg_melody_right song_a) envs e
               = PassBreak s')
         /\ e' = enter_pass cfg_melody_right song_a s'
         /\ current_idx e' = slice_start cfg_melody_right (Z.of_nat (length song_a))
         /\ notes_to_press e' = []
         /\ pending_software_notes e' = pending_software_notes s'
         /\ notes_pressed e' = notes_pressed s'.
Proof.
  do 2 eexists.
  assert (H0 : nth_error (fst (learn_loop cfg_melody_right song_a
                      [[env_idle; env_idle; env_gate [round_restart] false]; []]
                      engine0)) 0 = Some _) by (vm_compute; reflexivity).
  assert (H1 : nth_error (fst (learn_loop cfg_melody_right song_a
                      [[env_idle; env_idle; env_gate [round_restart] false]; []]
                      engine0)) 1 = Some _) by (vm_compute; reflexivity).
  split; [exact H0|]. split; [exact H1|]. split; [vm_compute; discriminate|].
  exact (proj1 (proj2 (learn_loop_entry_state cfg_melody_right song_a
           [[env_idle; env_idle; env_gate [round_restart] false]; []] engine0))
           0%nat _ _ H0 H1).
Defined.

(** ** The gate *)

Lemma mem_In x l : mem x l = true <-> In x l.
Proof.
  unfold mem. rewrite existsb_exists. split.
  - intros [y [Hy E]]. apply Z.eqb_eq in E. now subst.
  - intros H. exists x. split; [exact H | apply Z.eqb_refl].
Qed.

Lemma mem_false x l : mem x l = false <-> ~ In x l.
Proof.
  rewrite <- mem_In. destruct (mem x l); split; congruence.
Qed.

Lemma remove_first_In x y l :
  NoDup l -> (In y (remove_first x l) <-> In y l /\ y <> x).
Proof.
  induction l as [|z l IH]; intros Hnd; simpl.
  - tauto.
  - inversion Hnd as [|? ? Hz Hnd']; subst.
    destruct (Z.eqb_spec x z) as [->|Hxz].
    + split.
      * intros H. split; [now right|]. intros ->. contradiction.
      * intros [[->|H] Hne]; [contradiction|exact H].
    + simpl. rewrite IH by exact Hnd'. split.
      * intros [->|[H1 H2]]; [split; [now left|congruence]|split; [now right|exact H2]].
      * intros [[->|H1] H2]; [now left|now right].
Qed.

Lemma remove_first_NoDup x l : NoDup l -> NoDup (remove_first x l).
Proof.
  induction l as [|z l IH]; intros Hnd; simpl; [constructor|].
  inversion Hnd as [|? ? Hz Hnd']; subst.
  destruct (Z.eqb x z); [exact Hnd'|].
  constructor; [|exact (IH Hnd')].
  rewrite remove_first_In by exact Hnd'. tauto.
Qed.

Lemma forallb_ext_In {A} (f g : A -> bool) l :
  (forall x, In x l -> f x = g x) -> forallb f l = forallb g l.
Proof.
  induction l as [|x l IH]; intros H; simpl; [reflexivity|].
  rewrite (H x (or_introl eq_refl)), IH; [reflexivity|].
  intros y Hy. apply H. now right.
Qed.

Lemma held_after_app n a b h :
  held_after n (a ++ b) h = held_after n b (held_after n a h).
Proof. unfold held_after. now rewrite fold_left_app. Qed.

Lemma held_after_cons n ev evs h :
  held_after n (ev :: evs) h
  = held_after n evs (if is_note_msg ev && (note ev =? n) then in_velocity ev >? 0 else h).
Proof. reflexivity. Qed.

(** What [drain] leaves alone. *)
Lemma drain_frame b s w :
  let s' := fst (drain b s w) in
  notes_to_press s' = notes_to_press s /\ current_idx s' = current_idx s
  /\ mistakes_count s' = mistakes_count s
  /\ awaiting_restart_loop s' = awaiting_restart_loop s
  /\ is_started_midi s' = is_started_midi s /\ playport s' = playport s.
Proof.
  revert s w. induction b as [|ev b IH]; intros s w; simpl; [repeat split|].
  destruct (negb (is_note_msg ev)); [apply IH|].
  destruct (negb (mem (note ev) (notes_to_press s)));
  [destruct (in_velocity ev >? 0)
  |destruct (in_velocity ev >? 0); [destruct (mem (note ev) (notes_pressed s))|]];
  (edestruct IH as (H1 & H2 & H3 & H4 & H5 & H6); simpl in *;
   repeat split; [exact H1|exact H2|exact H3|exact H4|exact H5|exact H6]).
Qed.

Local Opaque held_after.

(** [drain] keeps [notes_pressed] duplicate-free and within
    [notes_to_press], and an expected note is pressed afterwards exactly
    when its last on/off event in the batch is a press. *)
Lemma drain_pressed b s w :
  NoDup (notes_pressed s) -> incl (notes_pressed s) (notes_to_press s) ->
  let s' := fst (drain b s w) in
  NoDup (notes_pressed s') /\ incl (notes_pressed s') (notes_to_press s)
  /\ forall n, In n (notes_to_press s) ->
       mem n (notes_pressed s') = held_after n b (mem n (notes_pressed s)).
Proof.
  revert s w. induction b as [|ev b IH]; intros s w Hnd Hincl; simpl.
  - refine (conj Hnd (conj Hincl _)). intros; reflexivity.
  - destruct (is_note_msg ev) eqn:Hnote; simpl.
    2:{ destruct (IH s w Hnd Hincl) as (H1 & H2 & H3).
        refine (conj H1 (conj H2 _)).
        intros n Hn. rewrite H3 by exact Hn. rewrite held_after_cons, Hnote.
        reflexivity. }
    destruct (mem (note ev) (notes_to_press s)) eqn:Hexp; simpl.
    + destruct (in_velocity ev >? 0) eqn:Hv.
      * set (s1 := if mem (note ev) (notes_pressed s) then s
                   else set_notes_pressed (notes_pressed s ++ [note ev]) s).
        assert (Hs1 : notes_to_press s1 = notes_to_press s
                /\ NoDup (notes_pressed s1)
                /\ incl (notes_pressed s1) (notes_to_press s)
                /\ forall n, mem n (notes_pressed s1)
                             = if note ev =? n then true else mem n (notes_pressed s)).
        { unfold s1. destruct (mem (note ev) (notes_pressed s)) eqn:Hm; simpl.
          - refine (conj eq_refl (conj Hnd (conj Hincl _))).
            intros n. destruct (Z.eqb_spec (note ev) n) as [<-|]; [exact Hm|reflexivity].
          - refine (conj eq_refl (conj _ (conj _ _))).
            + apply NoDup_app; [exact Hnd|constructor; [intros []|constructor]|].
              intros x Hx [<-|[]]. apply mem_false in Hm. contradiction.
            + intros x Hx. apply in_app_or in Hx as [Hx|[<-|[]]];
                [exact (Hincl x Hx)|apply mem_In; exact Hexp].
            + intros n. unfold mem. rewrite existsb_app. simpl.
              destruct (Z.eqb_spec (note ev) n) as [<-|Hne].
              * rewrite Z.eqb_refl. now rewrite !orb_true_r.
              * rewrite (proj2 (Z.eqb_neq n (note ev))) by congruence.
                now rewrite !orb_false_r. }
        destruct Hs1 as (Ht & Hnd1 & Hincl1 & Hmem1).
        destruct (IH s1 w Hnd1 (fun x Hx => eq_ind _ (fun l => In x l)
                   (Hincl1 x Hx) _ (eq_sym Ht))) as (H1 & H2 & H3).
        rewrite Ht in H2, H3.
        refine (conj H1 (conj H2 _)).
        intros n Hn. rewrite H3 by exact Hn. rewrite held_after_cons, Hnote, Hmem1.
        simpl. destruct (Z.eqb_spec (note ev) n); rewrite ?Hv; reflexivity.
      * set (s1 := set_notes_pressed (remove_first (note ev) (notes_pressed s)) s).
        assert (Hnd1 : NoDup (notes_pressed s1)) by exact (remove_first_NoDup _ _ Hnd).
        assert (Hincl1 : incl (notes_pressed s1) (notes_to_press s1)).
        { intros x Hx. apply (remove_first_In _ _ _ Hnd) in Hx. exact (Hincl x (proj1 Hx)). }
        destruct (IH s1 w Hnd1 Hincl1) as (H1 & H2 & H3).
        refine (conj H1 (conj H2 _)).
        intros n Hn. rewrite H3 by exact Hn. rewrite held_after_cons, Hnote. simpl.
        f_equal. destruct (Z.eqb_spec (note ev) n) as [<-|Hne].
        -- rewrite Hv. apply mem_false. unfold s1; simpl.
           rewrite remove_first_In by exact Hnd. tauto.
        -- unfold s1; simpl. destruct (mem n (notes_pressed s)) eqn:Hm.
           ++ apply mem_In. apply mem_In in Hm. apply remove_first_In; [exact Hnd|].
              split; [exact Hm|congruence].
           ++ apply mem_false. apply mem_false in Hm.
              rewrite remove_first_In by exact Hnd. tauto.
    + set (s1 := if in_velocity ev >? 0 then set_pending [] s else s).
      assert (Hs1 : notes_pressed s1 = notes_pressed s /\ notes_to_press s1 = notes_to_press s)
        by (unfold s1; destruct (in_velocity ev >? 0); split; reflexivity).
      destruct Hs1 as [Hp Ht].
      destruct (IH s1 (w ++ [ev])) as (H1 & H2 & H3);
        [rewrite Hp; exact Hnd|rewrite Hp, Ht; exact Hincl|].
      rewrite Hp, Ht in *.
      refine (conj H1 (conj H2 _)).
      intros n Hn. rewrite H3 by exact Hn. rewrite held_after_cons, Hnote. simpl.
      destruct (Z.eqb_spec (note ev) n) as [<-|]; [|reflexivity].
      apply mem_In in Hn. congruence.
Qed.

Local Transparent held_after.

Lemma count_wrong_frame wrong s :
  let s' := count_wrong wrong s in
  notes_pressed s' = notes_pressed s /\ notes_to_press s' = notes_to_press s
  /\ current_idx s' = current_idx s
  /\ pending_software_notes s' = pending_software_notes s
  /\ awaiting_restart_loop s' = awaiting_restart_loop s
  /\ is_started_midi s' = is_started_midi s /\ playport s' = playport s.
Proof.
  unfold count_wrong. revert s. induction wrong as [|ev wrong IH]; intros s; simpl.
  - repeat split.
  - destruct (in_velocity ev >? 0); [|apply IH].
    edestruct IH as (H1 & H2 & H3 & H4 & H5 & H6 & H7); simpl in *.
    repeat split; [exact H1|exact H2|exact H3|exact H4|exact H5|exact H6|exact H7].
Qed.

(** After a round of the gate, the notes pressed, the notes to press and
    the cursor are those [drain] left. *)
Lemma gate_round_frame cfg r wrong s1 :
  let s3 := external r (handle_wrong_notes cfg wrong s1) in
  notes_pressed s3 = notes_pressed s1 /\ notes_to_press s3 = notes_to_press s1
  /\ current_idx s3 = current_idx s1.
Proof.
  destruct (count_wrong_frame wrong s1) as (H1 & H2 & H3 & _).
  unfold external, handle_wrong_notes.
  destruct (negb (show_wrong_notes cfg =? 1));
  [|destruct ((mistakes_count (count_wrong wrong s1) >? number_of_mistakes cfg)
              && (number_of_mistakes cfg >? 0))];
  destruct (rd_restart r); destruct (rd_stop r); simpl;
  rewrite ?H1, ?H2, ?H3; repeat split.
Qed.

Lemma issubset_all_held tp p evs :
  (forall n, In n tp -> mem n p = held_after n evs false) ->
  issubset tp p = all_held tp evs.
Proof. apply forallb_ext_In. Qed.

Lemma events_upto_S r rs j :
  events_upto (r :: rs) (S j) = rd_batch r ++ events_upto rs j.
Proof. reflexivity. Qed.

Lemma events_upto_0 rs : events_upto rs 0 = [].
Proof. reflexivity. Qed.

(** The gate loop, started with the input events [pre] already taken into
    account: it stops at the first round boundary where every note to
    press is held, or earlier on a stop or restart request. *)
Lemma gate_wait_gen cfg rounds s pre :
  NoDup (notes_pressed s) -> incl (notes_pressed s) (notes_to_press s) ->
  (forall n, In n (notes_to_press s) ->
     mem n (notes_pressed s) = held_after n pre false) ->
  match gate_wait cfg rounds s with
  | GateDone s' =>
      exists k, (k <= length rounds)%nat
      /\ (forall j, (j < k)%nat ->
            all_held (notes_to_press s) (pre ++ events_upto rounds j) = false)
      /\ issubset (notes_to_press s') (notes_pressed s')
         = all_held (notes_to_press s) (pre ++ events_upto rounds k)
      /\ (all_held (notes_to_press s) (pre ++ events_upto rounds k) = true
          \/ is_started_midi s' = false \/ awaiting_restart_loop s' = true)
      /\ current_idx s' = current_idx s
      /\ notes_to_press s' = notes_to_press s
  | GateWaiting s' =>
      (forall j, (j <= length rounds)%nat ->
         all_held (notes_to_press s) (pre ++ events_upto rounds j) = false)
      /\ current_idx s' = current_idx s
      /\ notes_to_press s' = notes_to_press s
  end.
Proof.
  revert s pre. induction rounds as [|r rs IH]; intros s pre Hnd Hincl Hheld;
  pose proof (issubset_all_held _ _ _ Hheld) as Hsub;
  cbn [gate_wait];
  destruct (issubset (notes_to_press s) (notes_pressed s)) eqn:Hs;
  destruct (is_started_midi s) eqn:Hst; destruct (awaiting_restart_loop s) eqn:Haw;
  cbn [negb andb];
  try (exists 0%nat; rewrite events_upto_0, app_nil_r, <- Hsub, ?Hs;
       split; [apply Nat.le_0_l|];
       split; [intros j Hj; inversion Hj|];
       split; [reflexivity|];
       split; [tauto|split; reflexivity]).
  - split; [|split; reflexivity].
    intros j Hj. inversion Hj. rewrite events_upto_0, app_nil_r, <- Hsub. reflexivity.
  - destruct (drain (rd_batch r) s []) as [s1 wrong] eqn:Ed.
    destruct (drain_pressed (rd_batch r) s [] Hnd Hincl) as (Hnd1 & Hincl1 & Hmem1).
    destruct (drain_frame (rd_batch r) s []) as (Ht1 & Hi1 & _).
    rewrite Ed in Hnd1, Hincl1, Hmem1, Ht1, Hi1; cbn [fst] in *.
    destruct (gate_round_frame cfg r wrong s1) as (Hp3 & Ht3 & Hi3).
    set (s3 := external r (handle_wrong_notes cfg wrong s1)) in *.
    assert (Hheld3 : forall n, In n (notes_to_press s3) ->
              mem n (notes_pressed s3) = held_after n (pre ++ rd_batch r) false).
    { intros n Hn. rewrite Ht3, Ht1 in Hn. rewrite Hp3, Hmem1 by exact Hn.
      rewrite held_after_app, Hheld by exact Hn. reflexivity. }
    specialize (IH s3 (pre ++ rd_batch r)).
    rewrite Hp3, Ht3, Ht1 in IH.
    specialize (IH Hnd1 Hincl1).
    rewrite <- Ht1, <- Hp3, <- Ht3 in IH. specialize (IH Hheld3).
    rewrite Ht3, Ht1, Hi3, Hi1 in IH.
    destruct (gate_wait cfg rs s3) as [s'|s'].
    + destruct IH as (k & Hk & Hbefore & Hsat & Hend & Hidx & Htp).
      exists (S k). split; [simpl; lia|].
      split.
      * intros [|j] Hj.
        -- rewrite events_upto_0, app_nil_r, <- Hsub. reflexivity.
        -- rewrite events_upto_S, app_assoc. apply Hbefore. lia.
      * rewrite events_upto_S, app_assoc. split; [exact Hsat|].
        split; [exact Hend|split; [exact Hidx|exact Htp]].
    + destruct IH as (Hnever & Hidx & Htp).
      split; [|split; [exact Hidx|exact Htp]].
      intros [|j] Hj.
      * rewrite events_upto_0, app_nil_r, <- Hsub. reflexivity.
      * rewrite events_upto_S, app_assoc. apply Hnever. simpl in Hj. lia.
Qed.

(** For key presses alone, a note is held exactly when it was held before
    or one of the presses strikes it. *)
Lemma held_after_presses n evs h :
  Forall (fun ev => is_press ev = true) evs ->
  held_after n evs h = h || existsb (fun ev => note ev =? n) evs.
Proof.
  revert h. induction evs as [|ev evs IH]; intros h Hall.
  - simpl. now rewrite orb_false_r.
  - inversion Hall as [|? ? Hev Hrest]; subst.
    rewrite held_after_cons, IH by exact Hrest. cbn [existsb].
    unfold is_press in Hev. apply andb_true_iff in Hev as [Ht Hv].
    unfold is_note_msg, in_velocity.
    destruct (mtype ev); try discriminate. rewrite Hv.
    destruct (note ev =? n); simpl; [now rewrite orb_true_r|reflexivity].
Qed.

Lemma existsb_perm {A} (f : A -> bool) l l' :
  Permutation l l' -> existsb f l = existsb f l'.
Proof.
  intros Hp. induction Hp; simpl; try congruence.
  destruct (f x), (f y); reflexivity.
Qed.

(** C2: the gate loop over any sequence of input rounds, started (as
    [learn_midi] starts it) with nothing pressed.  It ends, at round [k],
    only at the first boundary where every note to press is held (note-ons
    with velocity > 0 not followed by a note-off of the same note), or
    earlier when learning is stopped or a restart is requested; while it
    waits, no boundary has every note held.  The cursor [current_idx] and
    the notes to press never change.  For key presses alone, whether every
    note is held does not depend on their order. *)
Theorem gate_wait_correct cfg rounds s :
  notes_pressed s = [] ->
  match gate_wait cfg rounds s with
  | GateDone s' =>
      exists k, (k <= length rounds)%nat
      /\ (forall j, (j < k)%nat ->
            all_held (notes_to_press s) (events_upto rounds j) = false)
      /\ issubset (notes_to_press s') (notes_pressed s')
         = all_held (notes_to_press s) (events_upto rounds k)
      /\ (all_held (notes_to_press s) (events_upto rounds k) = true
          \/ is_started_midi s' = false \/ awaiting_restart_loop s' = true)
      /\ current_idx s' = current_idx s
      /\ notes_to_press s' = notes_to_press s
  | GateWaiting s' =>
      (forall j, (j <= length rounds)%nat ->
         all_held (notes_to_press s) (events_upto rounds j) = false)
      /\ current_idx s' = current_idx s
      /\ notes_to_press s' = notes_to_press s
  end
  /\ (forall evs evs', Permutation evs evs' ->
        Forall (fun ev => is_press ev = true) evs ->
        all_held (notes_to_press s) evs = all_held (notes_to_press s) evs').
Proof.
  intros Hp. split.
  - refine (gate_wait_gen cfg rounds s [] _ _ _).
    + rewrite Hp. constructor.
    + rewrite Hp. intros x [].
    + intros n _. rewrite Hp. reflexivity.
  - intros evs evs' Hperm Hall.
    assert (Hall' : Forall (fun ev => is_press ev = true) evs').
    { rewrite Forall_forall in *. intros x Hx.
      apply Hall. exact (Permutation_in _ (Permutation_sym Hperm) Hx). }
    unfold all_held. apply forallb_ext_In. intros n _.
    rewrite !held_after_presses by assumption.
    rewrite (existsb_perm _ _ _ Hperm). reflexivity.
Qed.

Lemma gate_wait_correct_witness :
  notes_pressed engine_gate_60_64 = []
  /\ (match gate_wait cfg_melody_right
              [round_keys [on 64 1 0]; round_keys [on 60 1 0]] engine_gate_60_64 with
      | GateDone s' =>
          exists k, (k <= 2)%nat
          /\ (forall j, (j < k)%nat ->
                all_held [60; 64] (events_upto
                  [round_keys [on 64 1 0]; round_keys [on 60 1 0]] j) = false)
          /\ issubset (notes_to_press s') (notes_pressed s')
             = all_held [60; 64] (events_upto
                  [round_keys [on 64 1 0]; round_keys [on 60 1 0]] k)
          /\ (all_held [60; 64] (events_upto
                  [round_keys [on 64 1 0]; round_keys [on 60 1 0]] k) = true
              \/ is_started_midi s' = false \/ awaiting_restart_loop s' = true)
          /\ current_idx s' = 3
          /\ notes_to_press s' = [60; 64]
      | GateWaiting s' =>
          (forall j, (j <= 2)%nat ->
             all_held [60; 64] (events_upto
               [round_keys [on 64 1 0]; round_keys [on 60 1 0]] j) = false)
          /\ current_idx s' = 3
          /\ notes_to_press s' = [60; 64]
      end
  /\ (forall evs evs', Permutation evs evs' ->
        Forall (fun ev => is_press ev = true) evs ->
        all_held [60; 64] evs = all_held [60; 64] evs')).
Proof.
  split; [reflexivity|].
  exact (gate_wait_correct cfg_melody_right
           [round_keys [on 64 1 0]; round_keys [on 60 1 0]] engine_gate_60_64
           eq_refl).
Defined.

(** The gate for C4 and E4 resolves once both keys are down, in either
    order, and not before. *)
Example gate_60_then_64 :
  exists s', gate_wait cfg_melody_right
    [round_keys [on 60 1 0]; round_keys [on 64 1 0]] engine_gate_60_64 = GateDone s'
  /\ issubset (notes_to_press s') (notes_pressed s') = true.
Proof. eexists. split; [vm_compute; reflexivity|reflexivity]. Qed.

Example gate_64_then_60 :
  exists s', gate_wait cfg_melody_right
    [round_keys [on 64 1 0]; round_keys [on 60 1 0]] engine_gate_60_64 = GateDone s'
  /\ issubset (notes_to_press s') (notes_pressed s') = true.
Proof. eexists. split; [vm_compute; reflexivity|reflexivity]. Qed.

Example gate_only_60 :
  exists s', gate_wait cfg_melody_right
    [round_keys [on 60 1 0]] engine_gate_60_64 = GateWaiting s'.
Proof. eexists. vm_compute. reflexivity. Qed.

(** ** The mistake counter *)

Lemma count_wrong_mistakes wrong s :
  mistakes_count (count_wrong wrong s) = mistakes_count s + nb_strikes wrong.
Proof.
  unfold count_wrong, nb_strikes. revert s.
  induction wrong as [|ev wrong IH]; intros s; simpl; [lia|].
  destruct (in_velocity ev >? 0); rewrite IH; simpl; lia.
Qed.

Lemma record_notes_frame cfg m s :
  awaiting_restart_loop (record_notes cfg m s) = awaiting_restart_loop s
  /\ mistakes_count (record_notes cfg m s) = mistakes_count s
  /\ is_started_midi (record_notes cfg m s) = is_started_midi s.
Proof.
  unfold record_notes. destruct (is_meta m); [repeat split|].
  destruct (msgtype_eqb (mtype m) NoteOn && (velocity m >? 0)
            && ((channel m =? hands cfg) || (hands cfg =? 0)));
  destruct (is_software_note cfg m); try (repeat split; fail);
  destruct (practice cfg =? 2); try (repeat split; fail);
  match goal with |- context [is_nil ?l] => destruct (is_nil l) end;
  repeat split.
Qed.

Lemma flush_pending_frame clock s :
  awaiting_restart_loop (flush_pending clock s) = awaiting_restart_loop s
  /\ mistakes_count (flush_pending clock s) = mistakes_count s
  /\ is_started_midi (flush_pending clock s) = is_started_midi s.
Proof.
  unfold flush_pending.
  destruct (negb (is_nil (pending_software_notes s)) && is_nil (notes_to_press s)
            && next_note_time_set s && clock); repeat split.
Qed.

(** C3 (counterexample): with looping off ([is_loop_active = 0]), the
    restart requested by the fourth mistake ends the pass and the practice
    run finishes instead of starting over. *)
Lemma mistake_restart_ends_run_without_loop :
  exists s',
    learn_loop cfg_no_loop song_a
      [[env_idle; env_idle; env_gate four_wrong_rounds false]; []] engine0
    = ([enter_pass cfg_no_loop song_a engine0], RunFinished s')
    /\ mistakes_count s' = 0.
Proof. eexists. split; [vm_compute; reflexivity|reflexivity]. Qed.

(** With looping on, the same mistakes make the loop start over. *)
Example mistake_restart_loops :
  exists es s',
    learn_loop cfg_melody_right song_a
      [[env_idle; env_idle; env_gate four_wrong_rounds false]; []] engine0
    = (enter_pass cfg_melody_right song_a engine0 :: es, RunSuspended s')
    /\ length es = 1%nat.
Proof. do 2 eexists. split; [vm_compute; reflexivity|reflexivity]. Qed.

(** C3 (as amended): with the wrong-note display on and a threshold of 3,
    handling a batch of wrong notes adds the strikes to [mistakes_count];
    once the count exceeds 3 it is reset to 0 and one restart is requested.
    A message step never continues with a restart pending: the pass is
    broken and the request consumed, and [learn_loop] then starts over
    from the loop start only if looping is on and learning was not
    stopped; otherwise the run finishes. *)
Theorem mistake_threshold_restart cfg wrong s :
  show_wrong_notes cfg = 1 -> number_of_mistakes cfg = 3 ->
  0 <= mistakes_count s <= 3 ->
  (mistakes_count s + nb_strikes wrong <= 3 ->
     mistakes_count (handle_wrong_notes cfg wrong s)
       = mistakes_count s + nb_strikes wrong
     /\ awaiting_restart_loop (handle_wrong_notes cfg wrong s)
        = awaiting_restart_loop s)
  /\ (3 < mistakes_count s + nb_strikes wrong ->
     mistakes_count (handle_wrong_notes cfg wrong s) = 0
     /\ awaiting_restart_loop (handle_wrong_notes cfg wrong s) = true)
  /\ (forall e s0 m s1, step_msg cfg e s0 m = StepNext s1 ->
        awaiting_restart_loop s1 = false)
  /\ (forall e s0 m s1,
        me_stop e = false -> is_started_midi s0 = true ->
        check_notes cfg (me_rounds e) (tDelay cfg m) m s0 = GateDone s1 ->
        awaiting_restart_loop s1 = true ->
        exists s2, step_msg cfg e s0 m = StepBreak s2
                   /\ awaiting_restart_loop s2 = false
                   /\ mistakes_count s2 = mistakes_count s1)
  /\ (forall song envs rest s0 s1,
        run_pass cfg (song_slice cfg song) envs (enter_pass cfg song s0)
          = PassBreak s1 ->
        learn_loop cfg song (envs :: rest) s0
        = if negb (is_loop_active cfg =? 0) && is_started_midi s1
          then (enter_pass cfg song s0 :: fst (learn_loop cfg song rest s1),
                snd (learn_loop cfg song rest s1))
          else ([enter_pass cfg song s0], RunFinished s1)).
Proof.
  intros Hshow Hnm Hrange.
  assert (Hh : handle_wrong_notes cfg wrong s
               = if (mistakes_count s + nb_strikes wrong >? 3) then
                   restart_loop (set_mistakes 0 (count_wrong wrong s))
                 else count_wrong wrong s).
  { unfold handle_wrong_notes. rewrite Hshow, Hnm. cbn [Z.eqb negb].
    rewrite count_wrong_mistakes. simpl (3 >? 0). now rewrite andb_true_r. }
  destruct (count_wrong_frame wrong s) as (_ & _ & _ & _ & Haw & _ & _).
  split; [|split; [|split; [|split]]].
  - intros Hle. rewrite Hh.
    replace (mistakes_count s + nb_strikes wrong >? 3) with false
      by (symmetry; rewrite Z.gtb_ltb; apply Z.ltb_ge; lia).
    split; [apply count_wrong_mistakes|exact Haw].
  - intros Hgt. rewrite Hh.
    replace (mistakes_count s + nb_strikes wrong >? 3) with true
      by (symmetry; rewrite Z.gtb_ltb; apply Z.ltb_lt; lia).
    split; reflexivity.
  - intros e s0 m s1 Hstep. unfold step_msg in Hstep.
    destruct (negb (is_started_midi (if me_stop e then set_started false s0 else s0)));
      [discriminate|].
    destruct (check_notes _ _ _ _ _) as [s1'|s1']; [|discriminate].
    set (s4 := if me_restart e then _ else _) in Hstep.
    destruct (awaiting_restart_loop s4) eqn:Ha; [discriminate|].
    injection Hstep as <-. exact Ha.
  - intros e s0 m s1 Hstop Hst Hcheck Haw1. unfold step_msg.
    rewrite Hstop, Hst. cbn [negb]. rewrite Hcheck.
    destruct (record_notes_frame cfg m s1) as (Ha2 & Hm2 & _).
    destruct (flush_pending_frame (me_clock e) (record_notes cfg m s1)) as (Ha3 & Hm3 & _).
    set (s3 := flush_pending (me_clock e) (record_notes cfg m s1)) in *.
    assert (Ha4 : awaiting_restart_loop (if me_restart e then restart_loop s3 else s3) = true)
      by (destruct (me_restart e); [reflexivity|congruence]).
    assert (Hm4 : mistakes_count (if me_restart e then restart_loop s3 else s3)
                  = mistakes_count s1)
      by (destruct (me_restart e); simpl; congruence).
    rewrite Ha4. eexists. split; [reflexivity|]. split; [reflexivity|exact Hm4].
  - intros song envs rest s0 s1 Hpass. simpl. rewrite Hpass.
    destruct (negb (is_loop_active cfg =? 0) && is_started_midi s1); [|reflexivity].
    destruct (learn_loop cfg song rest s1); reflexivity.
Qed.

Lemma mistake_threshold_restart_witness :
  show_wrong_notes cfg_melody_right = 1
  /\ number_of_mistakes cfg_melody_right = 3
  /\ 0 <= mistakes_count engine_three_mistakes <= 3
  /\ mistakes_count (handle_wrong_notes cfg_melody_right [on 67 1 0]
                       engine_three_mistakes) = 0
  /\ awaiting_restart_loop (handle_wrong_notes cfg_melody_right [on 67 1 0]
                              engine_three_mistakes) = true.
Proof.
  assert (H1 : show_wrong_notes cfg_melody_right = 1) by reflexivity.
  assert (H2 : number_of_mistakes cfg_melody_right = 3) by reflexivity.
  assert (H3 : 0 <= mistakes_count engine_three_mistakes <= 3) by (simpl; lia).
  destruct (mistake_threshold_restart cfg_melody_right [on 67 1 0]
              engine_three_mistakes H1 H2 H3) as (_ & Hgt & _).
  split; [exact H1|split; [exact H2|split; [exact H3|]]].
  apply Hgt. vm_compute. reflexivity.
Defined.

(** ** Software notes *)

(** C4 (counterexample): in [song_b] the software's C3 is deferred behind
    the user's C4; the gate opened by the next message is left through a
    restart request without C4 being pressed, and the timed flush of lines
    620-626 then sends the deferred note. *)
Lemma deferred_note_sent_without_gate :
  exists s1 g s',
    run_pass cfg_melody_right [on 60 1 0; on 48 2 0] [env_idle; env_idle] engine0
      = PassEnd s1
    /\ pending_software_notes s1 = [on 48 2 0] /\ playport s1 = []
    /\ gate_wait cfg_melody_right [round_restart] (gate_entry s1) = GateDone g
    /\ issubset (notes_to_press g) (notes_pressed g) = false
    /\ step_msg cfg_melody_right (env_gate [round_restart] true) s1 (off 60 1 10)
       = StepBreak s'
    /\ playport s' = [on 48 2 0].
Proof.
  do 3 eexists.
  split; [vm_compute; reflexivity|].
  split; [reflexivity|]. split; [reflexivity|].
  split; [vm_compute; reflexivity|]. split; [reflexivity|].
  split; [vm_compute; reflexivity|reflexivity].
Qed.

Lemma drain_pending b s w :
  playport (fst (drain b s w)) = playport s
  /\ pending_software_notes (fst (drain b s w))
     = if existsb (wrong_strike (notes_to_press s)) b then []
       else pending_software_notes s.
Proof.
  revert s w. induction b as [|ev b IH]; intros s w; [split; reflexivity|].
  cbn [drain existsb]. unfold wrong_strike at 1.
  destruct (is_note_msg ev); cbn [negb andb orb]; [|apply IH].
  destruct (mem (note ev) (notes_to_press s)); cbn [negb andb orb].
  - destruct (in_velocity ev >? 0);
    [destruct (mem (note ev) (notes_pressed s))|];
    (edestruct IH as [H1 H2]; simpl in H1, H2; split; [exact H1|exact H2]).
  - destruct (in_velocity ev >? 0); cbn [orb].
    + edestruct IH as [H1 H2]; simpl in H1, H2. split; [exact H1|].
      rewrite H2. destruct (existsb _ b); reflexivity.
    + apply IH.
Qed.

(** C4 (as amended): a software note met while notes are waiting to be
    pressed (outside Listen mode) is appended to the pending buffer and not
    sent; the buffer is sent and emptied when the gate is left satisfied,
    kept when it is left otherwise, and sent by the timed flush only once
    no notes are waiting, the next-note time is set and has passed; in the
    gate, input never sends anything, and a wrong key struck with velocity
    > 0 empties the buffer. *)
Theorem pending_software_notes_release cfg :
  (forall m s, is_meta m = false -> is_software_note cfg m = true ->
     practice cfg <> 2 -> notes_to_press (record_notes cfg m s) <> [] ->
     pending_software_notes (record_notes cfg m s)
       = pending_software_notes s ++ [m]
     /\ playport (record_notes cfg m s) = playport s)
  /\ (forall s, issubset (notes_to_press s) (notes_pressed s) = true ->
        playport (gate_release s) = playport s ++ pending_software_notes s
        /\ pending_software_notes (gate_release s) = [])
  /\ (forall s, issubset (notes_to_press s) (notes_pressed s) = false ->
        playport (gate_release s) = playport s
        /\ pending_software_notes (gate_release s) = pending_software_notes s)
  /\ (forall clock s,
        notes_to_press s <> [] \/ next_note_time_set s = false \/ clock = false ->
        flush_pending clock s = s)
  /\ (forall s, notes_to_press s = [] -> next_note_time_set s = true ->
        playport (flush_pending true s) = playport s ++ pending_software_notes s
        /\ pending_software_notes (flush_pending true s) = [])
  /\ (forall b s w,
        playport (fst (drain b s w)) = playport s
        /\ pending_software_notes (fst (drain b s w))
           = if existsb (wrong_strike (notes_to_press s)) b then []
             else pending_software_notes s).
Proof.
  split; [|split; [|split; [|split; [|split]]]].
  - intros m s Hmeta Hsoft Hpr Hnn. unfold record_notes in *.
    rewrite Hmeta, Hsoft in *.
    replace (practice cfg =? 2) with false in * by (symmetry; apply Z.eqb_neq; exact Hpr).
    cbv zeta in *.
    destruct (msgtype_eqb (mtype m) NoteOn && (velocity m >? 0)
              && ((channel m =? hands cfg) || (hands cfg =? 0)));
    [destruct (notes_to_press s ++ [note m]) eqn:Ht
    |destruct (notes_to_press s) eqn:Ht];
    simpl in *; rewrite ?Ht in *; simpl in *; try congruence; split; reflexivity.
  - intros s Hsub. unfold gate_release. rewrite Hsub.
    destruct (pending_software_notes s) eqn:Hp; simpl; rewrite ?Hp, ?app_nil_r;
    split; reflexivity.
  - intros s Hsub. unfold gate_release. rewrite Hsub. split; reflexivity.
  - intros clock s H. unfold flush_pending.
    destruct H as [H|[H|H]].
    + destruct (notes_to_press s); [congruence|].
      now rewrite andb_false_r, andb_false_l.
    + rewrite H. now rewrite andb_false_r, andb_false_l.
    + rewrite H. now rewrite andb_false_r.
  - intros s Ht Hn. unfold flush_pending. rewrite Ht, Hn. simpl.
    destruct (pending_software_notes s) eqn:Hp; simpl; rewrite ?Hp, ?app_nil_r;
    split; reflexivity.
  - apply drain_pending.
Qed.

(** ** Wrong notes *)

(** C5 (counterexample): with the wrong-note display off, a wrong key
    (G4 while C4 and E4 are awaited) leaves [mistakes_count] at 0. *)
Lemma hidden_wrong_note_not_counted :
  exists s',
    gate_wait cfg_hidden_mistakes [round_keys [on 67 1 0]] engine_gate_60_64
      = GateWaiting s'
    /\ mistakes_count s' = mistakes_count engine_gate_60_64.
Proof. eexists. split; [vm_compute; reflexivity|reflexivity]. Qed.

Lemma drain_app b1 b2 s w :
  drain (b1 ++ b2) s w = let (s', w') := drain b1 s w in drain b2 s' w'.
Proof.
  revert s w. induction b1 as [|ev b1 IH]; intros s w; [reflexivity|].
  cbn [app drain].
  destruct (negb (is_note_msg ev)); [apply IH|].
  destruct (negb (mem (note ev) (notes_to_press s))); [apply IH|].
  destruct (in_velocity ev >? 0); apply IH.
Qed.

Lemma drain_wrong b s w :
  snd (drain b s w)
  = w ++ filter (fun ev => is_note_msg ev && negb (mem (note ev) (notes_to_press s))) b.
Proof.
  revert s w. induction b as [|ev b IH]; intros s w; cbn [drain filter].
  - now rewrite app_nil_r.
  - destruct (is_note_msg ev); cbn [negb andb]; [|apply IH].
    destruct (mem (note ev) (notes_to_press s)); cbn [negb andb].
    + destruct (in_velocity ev >? 0);
      [destruct (mem (note ev) (notes_pressed s))|]; rewrite IH; reflexivity.
    + destruct (in_velocity ev >? 0); rewrite IH; simpl; now rewrite <- app_assoc.
Qed.

(** The pressed notes [drain] computes depend neither on the pending buffer
    nor on the wrong notes collected so far. *)
Lemma drain_pressed_indep b s t w w' :
  notes_pressed s = notes_pressed t -> notes_to_press s = notes_to_press t ->
  notes_pressed (fst (drain b s w)) = notes_pressed (fst (drain b t w')).
Proof.
  revert s t w w'. induction b as [|ev b IH]; intros s t w w' Hp Ht;
  [exact Hp|].
  cbn [drain]. rewrite <- Ht, <- Hp.
  destruct (negb (is_note_msg ev)); [now apply IH|].
  destruct (negb (mem (note ev) (notes_to_press s)));
  [destruct (in_velocity ev >? 0); apply IH; simpl; congruence|].
  destruct (in_velocity ev >? 0);
  [destruct (mem (note ev) (notes_pressed s))|]; apply IH; simpl; congruence.
Qed.

Lemma nb_strikes_app w1 w2 :
  nb_strikes (w1 ++ w2) = nb_strikes w1 + nb_strikes w2.
Proof. unfold nb_strikes. rewrite filter_app, length_app. lia. Qed.

(** C5 (as amended): in the gate, an input note struck with velocity > 0
    whose note is not to be pressed, wherever it comes in a batch, is
    collected as a wrong note and leaves the pressed notes as they would
    be without it, so it cannot satisfy the gate.  With the wrong-note
    display on it adds exactly one to [mistakes_count] before the threshold
    test of [handle_wrong_notes]; with the display off it changes nothing. *)
Theorem wrong_note_isolation cfg b1 ev b2 s w :
  wrong_strike (notes_to_press s) ev = true ->
  In ev (snd (drain (b1 ++ ev :: b2) s w))
  /\ notes_pressed (fst (drain (b1 ++ ev :: b2) s w))
     = notes_pressed (fst (drain (b1 ++ b2) s w))
  /\ (forall w1 w2 s',
        mistakes_count (count_wrong (w1 ++ ev :: w2) s')
        = mistakes_count (count_wrong (w1 ++ w2) s') + 1)
  /\ (show_wrong_notes cfg <> 1 -> forall wr s', handle_wrong_notes cfg wr s' = s').
Proof.
  intros Hw. unfold wrong_strike in Hw.
  apply andb_true_iff in Hw as [Hw Hv]. apply andb_true_iff in Hw as [Hn Hm].
  split; [|split; [|split]].
  - rewrite drain_wrong. apply in_or_app. right.
    apply filter_In. split; [apply in_or_app; right; now left|].
    now rewrite Hn, Hm.
  - rewrite !drain_app.
    destruct (drain b1 s w) as [s1 w1] eqn:E1.
    destruct (drain_frame b1 s w) as (Ht1 & _). rewrite E1 in Ht1. cbn [fst] in Ht1.
    cbn [drain]. rewrite Hn. cbn [negb]. rewrite Ht1, Hm. cbn [negb]. rewrite Hv.
    apply drain_pressed_indep; reflexivity.
  - intros w1 w2 s'. rewrite !count_wrong_mistakes, !nb_strikes_app.
    assert (Hc : nb_strikes (ev :: w2) = nb_strikes w2 + 1)
      by (unfold nb_strikes; cbn [filter]; rewrite Hv; cbn [length]; lia).
    rewrite Hc. lia.
  - intros Hs wr s'. unfold handle_wrong_notes.
    apply Z.eqb_neq in Hs. now rewrite Hs.
Qed.

Lemma wrong_note_isolation_witness :
  wrong_strike (notes_to_press engine_gate_60_64) (on 67 1 0) = true
  /\ In (on 67 1 0) (snd (drain ([] ++ [on 67 1 0]) engine_gate_60_64 []))
  /\ notes_pressed (fst (drain ([] ++ [on 67 1 0]) engine_gate_60_64 []))
     = notes_pressed (fst (drain ([] ++ []) engine_gate_60_64 [])).
Proof.
  assert (H : wrong_strike (notes_to_press engine_gate_60_64) (on 67 1 0) = true)
    by reflexivity.
  destruct (wrong_note_isolation cfg_melody_right [] (on 67 1 0) []
              engine_gate_60_64 [] H) as (H1 & H2 & _).
  split; [exact H|split; [exact H1|exact H2]].
Defined.

(** ** The renderer's frames *)

Lemma visible_notes_spec r buf vs :
  visible_notes r buf = Some vs ->
  forall v, In v vs <->
    exists nd k, In nd buf /\ in_window r nd = true
                 /\ find_key (nd_midi_note nd) = Some k /\ v = visible_of r nd k.
Proof.
  revert vs. induction buf as [|nd buf IH]; intros vs Hvs v; simpl in Hvs.
  - injection Hvs as <-. split; [intros []|intros (nd & k & [] & _)].
  - destruct (in_window r nd) eqn:Hw.
    + destruct (Qeq_bool (lookahead_time r) 0); [discriminate|].
      destruct (visible_notes r buf) as [vs'|]; [|discriminate].
      specialize (IH vs' eq_refl).
      destruct (find_key (nd_midi_note nd)) as [k|] eqn:Hk; injection Hvs as <-.
      * simpl. rewrite IH. split.
        -- intros [<-|(nd' & k' & H1 & H2 & H3 & H4)].
           ++ exists nd, k. repeat split; [now left|exact Hw|exact Hk].
           ++ exists nd', k'. repeat split; [now right|exact H2|exact H3|exact H4].
        -- intros (nd' & k' & [<-|H1] & H2 & H3 & H4).
           ++ left. rewrite H3 in Hk. injection Hk as ->. now symmetry.
           ++ right. exists nd', k'. repeat split; assumption.
      * rewrite IH. split.
        -- intros (nd' & k' & H1 & H2 & H3 & H4).
           exists nd', k'. repeat split; [now right|exact H2|exact H3|exact H4].
        -- intros (nd' & k' & [<-|H1] & H2 & H3 & H4); [congruence|].
           exists nd', k'. repeat split; assumption.
    + rewrite (IH vs Hvs). split.
      * intros (nd' & k' & H1 & H2 & H3 & H4).
        exists nd', k'. repeat split; [now right|exact H2|exact H3|exact H4].
      * intros (nd' & k' & [<-|H1] & H2 & H3 & H4); [congruence|].
        exists nd', k'. repeat split; assumption.
Qed.

Lemma piano_keys_notes :
  map key_midi_note piano_keys = map (fun i => Z.of_nat i + 21) (seq 0 88).
Proof. vm_compute. reflexivity. Qed.

Lemma find_key_range n : (exists k, find_key n = Some k) <-> 21 <= n <= 108.
Proof.
  unfold find_key. split.
  - intros [k Hk]. apply find_some in Hk as [Hin Heq].
    apply Z.eqb_eq in Heq. subst n.
    assert (H : In (key_midi_note k) (map key_midi_note piano_keys))
      by (apply in_map; exact Hin).
    rewrite piano_keys_notes in H. apply in_map_iff in H as (i & Hi & Hs).
    apply in_seq in Hs. lia.
  - intros Hr. destruct (find (fun k => key_midi_note k =? n) piano_keys) as [k|] eqn:Hf;
    [now exists k|exfalso].
    assert (H : In n (map key_midi_note piano_keys)).
    { rewrite piano_keys_notes. apply in_map_iff. exists (Z.to_nat (n - 21)).
      split; [lia|]. apply in_seq. lia. }
    apply in_map_iff in H as (k & Hk & Hin).
    pose proof (find_none _ _ Hf k Hin) as Hn. simpl in Hn.
    rewrite Hk, Z.eqb_refl in Hn. discriminate.
Qed.

Lemma in_window_iff r nd :
  in_window r nd = true <->
  (current_time r <= nd_start_time nd
   <= current_time r + fall_distance (settings r) / 100)%Q.
Proof.
  unfold in_window, lookahead_time. rewrite andb_true_iff, !Qle_bool_iff.
  reflexivity.
Qed.

(** C6: in every frame the renderer produces, an entry is there exactly
    for each buffered note whose start time lies in
    [[current_time, current_time + fall_distance / 100]] and whose MIDI
    number is on the 88-key layout (21 to 108); notes off the layout are
    skipped. *)
Theorem frame_visible_notes r fr :
  generate_frame_data r = Some fr ->
  (forall v, In v (fr_notes fr) <->
     exists nd k, In nd (notes_buffer r)
       /\ (current_time r <= nd_start_time nd
           <= current_time r + fall_distance (settings r) / 100)%Q
       /\ find_key (nd_midi_note nd) = Some k /\ v = visible_of r nd k)
  /\ (forall n, (exists k, find_key n = Some k) <-> 21 <= n <= 108).
Proof.
  intros Hfr. split; [|exact find_key_range].
  unfold generate_frame_data in Hfr.
  destruct (visible_notes r (notes_buffer r)) as [vs|] eqn:Hvs; [|discriminate].
  injection Hfr as <-. cbn [fr_notes]. intros v.
  rewrite (visible_notes_spec _ _ _ Hvs v).
  split; intros (nd & k & H1 & H2 & H3 & H4); exists nd, k;
  (split; [exact H1|split; [apply in_window_iff; exact H2|split; assumption]]).
Qed.

Lemma frame_visible_notes_witness :
  exists fr, generate_frame_data renderer_at_5 = Some fr
  /\ (forall v, In v (fr_notes fr) <->
     exists nd k, In nd (notes_buffer renderer_at_5)
       /\ (current_time renderer_at_5 <= nd_start_time nd
           <= current_time renderer_at_5
              + fall_distance (settings renderer_at_5) / 100)%Q
       /\ find_key (nd_midi_note nd) = Some k /\ v = visible_of renderer_at_5 nd k).
Proof.
  eexists. assert (H : generate_frame_data renderer_at_5 = Some _)
    by (vm_compute; reflexivity).
  split; [exact H|exact (proj1 (frame_visible_notes _ _ H))].
Defined.

(** With a 2 s lookahead at 5 s, the note at 6.5 s is drawn and the note at
    8 s is not. *)
Example frame_at_5 :
  option_map (fun fr => map v_midi_note (fr_notes fr))
    (generate_frame_data renderer_at_5) = Some [60].
Proof. vm_compute. reflexivity. Qed.

(** ** Stopping and synchronising the renderer *)

(** C7 (counterexample): stopping an already-stopped renderer sends the
    connected client a second "stop" message. *)
Lemma stop_twice_broadcasts_twice :
  is_active renderer_stopped = false
  /\ delivered (stop_animation renderer_stopped) = [(1, BStop)]
  /\ delivered (stop_animation (stop_animation renderer_stopped))
     = [(1, BStop); (1, BStop)].
Proof. split; [reflexivity|split; reflexivity]. Qed.

(** C7 (as amended): on a stopped renderer with an empty buffer,
    [stop_animation] raises nothing and changes nothing but what a
    broadcast of "stop" changes: each connected client whose send succeeds
    receives one more "stop" message and the clients whose send fails are
    dropped; with no client connected it is a no-op. *)
Theorem stop_animation_when_stopped r :
  is_active r = false -> notes_buffer r = [] ->
  stop_animation r = broadcast_to_clients BStop r
  /\ delivered (stop_animation r)
     = delivered r
       ++ map (fun c => (client_id c, BStop)) (filter client_ok (websocket_clients r))
  /\ (websocket_clients r = [] -> stop_animation r = r).
Proof.
  destruct r as [act th buf ct st se cs dl]; simpl. intros -> ->.
  split; [reflexivity|split].
  - unfold broadcast_to_clients; simpl. destruct cs; simpl; [|reflexivity].
    now rewrite app_nil_r.
  - intros ->. reflexivity.
Qed.

Lemma stop_animation_when_stopped_witness :
  is_active renderer_stopped = false /\ notes_buffer renderer_stopped = []
  /\ delivered (stop_animation renderer_stopped)
     = delivered renderer_stopped
       ++ map (fun c => (client_id c, BStop))
            (filter client_ok (websocket_clients renderer_stopped)).
Proof.
  assert (H1 : is_active renderer_stopped = false) by reflexivity.
  assert (H2 : notes_buffer renderer_stopped = []) by reflexivity.
  split; [exact H1|split; [exact H2|]].
  exact (proj1 (proj2 (stop_animation_when_stopped _ H1 H2))).
Defined.

(** C10: [sync_with_learn_midi] leaves an inactive renderer unchanged and,
    on an active one, sets [current_time] to the position and changes no
    other field. *)
Theorem sync_gated_on_activity r p :
  (is_active r = false -> sync_with_learn_midi r p = r)
  /\ (is_active r = true ->
      sync_with_learn_midi r p
      = mkRenderer (is_active r) (has_animation_thread r) (notes_buffer r) p
          (start_time r) (settings r) (websocket_clients r) (delivered r)).
Proof.
  unfold sync_with_learn_midi. split; intros H; rewrite H; reflexivity.
Qed.

(** ** Timing *)

(** C8 (counterexample): a meta message one beat (480 ticks at
    500000 us per beat, so 0.5 s) before the first note. The renderer
    places the note at 0 s. The timeline accumulated over the whole
    sequence places it at 0.5 s, and so does playback: the practice engine
    sleeps the [tDelay] of every message, the meta one included
    (lines 551-553), before it reaches the note. *)
Lemma meta_delta_dropped :
  Forall2 Qeq (map nd_start_time (load_notes_from_midi 500000 480 song_meta_first [])) [0%Q]
  /\ Forall2 Qeq (spec_note_times 500000 480 0 song_meta_first) [1 # 2]
  /\ (fold_left Qplus
        (map (tDelay (mkConfig 2 0 0 1 3 0 0 100 500000 480 100)) song_meta_first) 0
      == 1 # 2)%Q.
Proof.
  split; [vm_compute; repeat constructor|].
  split; [vm_compute; repeat constructor|].
  vm_compute. reflexivity.
Qed.

Lemma skipn_S_tl {A} k (l : list A) : skipn (S k) l = tl (skipn k l).
Proof.
  revert l. induction k as [|k IH]; intros [|x l]; try reflexivity.
  apply IH.
Qed.

Lemma Forall2_tl {A B} (R : A -> B -> Prop) l l' :
  Forall2 R l l' -> Forall2 R (tl l) (tl l').
Proof. intros H. destruct H; [constructor|exact H0]. Qed.

Lemma Forall2_app_single {A B} (R : A -> B -> Prop) l l' x y :
  Forall2 R l l' -> R x y -> Forall2 R (l ++ [x]) (l' ++ [y]).
Proof. intros H Hxy. apply Forall2_app; [exact H|constructor; [exact Hxy|constructor]]. Qed.

(** Appending to a bounded deque keeps the last [n] elements. *)
Lemma deque_append_keep_last (l : list Q) L x y n :
  (0 < n)%nat -> Forall2 Qeq l (keep_last n L) -> Qeq x y ->
  Forall2 Qeq (deque_append n l x) (keep_last n (L ++ [y])).
Proof.
  intros Hn H Hxy. unfold deque_append, keep_last in *.
  pose proof (Forall2_length H) as Hlen. rewrite length_skipn in Hlen.
  rewrite length_app. simpl length.
  destruct (Nat.ltb_spec (length l) n) as [Hlt|Hge].
  - replace (length L + 1 - n)%nat with 0%nat by lia.
    replace (length L - n)%nat with 0%nat in H by lia.
    simpl in *. apply Forall2_app_single; assumption.
  - replace (length L + 1 - n)%nat with (S (length L - n)) by lia.
    rewrite skipn_S_tl, skipn_app.
    replace (length L - n - length L)%nat with 0%nat by lia. simpl skipn.
    assert (Hne : skipn (length L - n) L <> []).
    { intros E. rewrite E in H. inversion H; subst. simpl in Hge. lia. }
    destruct (skipn (length L - n) L) as [|z zs] eqn:E; [contradiction|].
    simpl. apply Forall2_app_single; [|exact Hxy].
    apply Forall2_tl in H. exact H.
Qed.

Lemma map_deque_append {A B} (f : A -> B) n l x :
  map f (deque_append n l x) = deque_append n (map f l) (f x).
Proof.
  unfold deque_append. rewrite length_map.
  destruct (Nat.ltb (length l) n); rewrite map_app; [reflexivity|].
  destruct l; reflexivity.
Qed.

Lemma load_notes_loop_times tempo tpb song ct acc buf L :
  (inject_Z ct * inject_Z tempo / (inject_Z tpb * inject_Z 1000000) == acc)%Q ->
  Forall2 Qeq (map nd_start_time buf) (keep_last 1000 L) ->
  Forall2 Qeq (map nd_start_time (load_notes_loop tempo tpb ct buf song))
    (keep_last 1000 (L ++ nonmeta_note_times tempo tpb acc song)).
Proof.
  revert ct acc buf L. induction song as [|m song IH]; intros ct acc buf L Hacc Hbuf.
  - simpl. now rewrite app_nil_r.
  - simpl. destruct (is_meta m); [now apply IH|].
    set (acc' := (acc + tick2second (time m) tpb (inject_Z tempo))%Q).
    assert (Hacc' : (inject_Z (ct + time m) * inject_Z tempo
                     / (inject_Z tpb * inject_Z 1000000) == acc')%Q).
    { unfold acc', tick2second. rewrite <- Hacc. unfold Qdiv.
      rewrite inject_Z_plus. ring. }
    destruct (msgtype_eqb (mtype m) NoteOn && (velocity m >? 0)).
    + replace (L ++ acc' :: nonmeta_note_times tempo tpb acc' song)
        with ((L ++ [acc']) ++ nonmeta_note_times tempo tpb acc' song)
        by now rewrite <- app_assoc.
      apply IH; [exact Hacc'|].
      rewrite map_deque_append. apply deque_append_keep_last; [lia|exact Hbuf|].
      exact Hacc'.
    + apply IH; assumption.
Qed.

(** C8: what the code computes. With [ticks_per_beat <> 0] (at 0 line
    140 raises [ZeroDivisionError] on the first loaded note), the
    renderer's start time of each note it loads is the sum, over the
    non-meta messages up to that note, of
    [ticks * tempo / (ticks_per_beat * 1_000_000)] with the song's tempo:
    the deltas carried by meta messages are not counted, and the buffer
    keeps the last 1000 notes. The practice engine's [tDelay]
    ([mido.tick2second] at line 477) raises exactly when [set_tempo] or
    [ticks_per_beat] is 0; otherwise it is
    [t * effective_tempo / (ticks_per_beat * 1_000_000)] with
    [effective_tempo = song_tempo * 100 / set_tempo], the delay the
    engine model sleeps. *)
Theorem timing_arithmetic :
  (forall tempo tpb song buf, tpb <> 0 -> song <> [] ->
     Forall2 Qeq (map nd_start_time (load_notes_from_midi tempo tpb song buf))
       (keep_last 1000 (nonmeta_note_times tempo tpb 0 song)))
  /\ (forall cfg m,
        (tDelay_py cfg m = None <-> set_tempo cfg = 0 \/ ticks_per_beat cfg = 0)
        /\ forall d, tDelay_py cfg m = Some d ->
             (d == inject_Z (time m)
                   * (inject_Z (song_tempo cfg) * inject_Z 100 / inject_Z (set_tempo cfg))
                   / (inject_Z (ticks_per_beat cfg) * inject_Z 1000000))%Q
             /\ (d == tDelay cfg m)%Q).
Proof.
  split.
  - intros tempo tpb song buf _ Hne. unfold load_notes_from_midi.
    destruct song as [|m song]; [contradiction|].
    apply (load_notes_loop_times tempo tpb (m :: song) 0 0 [] []).
    + unfold Qdiv. simpl. ring.
    + constructor.
  - intros cfg m. unfold tDelay_py, mido_tick2second.
    destruct (Z.eqb_spec (set_tempo cfg) 0) as [Hs|Hs];
      [split; [split; auto|discriminate]|].
    destruct (Z.eqb_spec (ticks_per_beat cfg) 0) as [Ht|Ht];
      [split; [split; auto|discriminate]|].
    split; [split; [discriminate|intros [H|H]; contradiction]|].
    intros d Hd. injection Hd as <-.
    assert (Htq : ~ (inject_Z (ticks_per_beat cfg) == 0)%Q)
      by (intros E; apply (proj1 (inject_Z_injective _ 0)) in E; contradiction).
    assert (Hsq : ~ (inject_Z (set_tempo cfg) == 0)%Q)
      by (intros E; apply (proj1 (inject_Z_injective _ 0)) in E; contradiction).
    unfold tDelay, tick2second, effective_tempo.
    split; field; split; assumption.
Qed.

(** Accumulating from [acc >= 0] gives a sorted list bounded below by [acc]. *)
Lemma notes_time_from_sorted msgs acc :
  (0 <= acc)%Q -> Forall (fun m => 0 <= sec_time m)%Q msgs ->
  Sorted Qle (notes_time_from acc msgs)
  /\ HdRel Qle acc (notes_time_from acc msgs).
Proof.
  revert acc. induction msgs as [|m msgs IH]; intros acc Hacc Hall; simpl.
  - split; constructor.
  - inversion Hall as [|? ? Hm Hrest]; subst.
    destruct (sec_is_meta m); [now apply IH|].
    assert (H0 : (0 <= acc + sec_time m)%Q)
      by (apply (Qle_trans _ acc); [exact Hacc|]; rewrite <- (Qplus_0_r acc) at 1;
          apply Qplus_le_r; exact Hm).
    destruct (IH (acc + sec_time m)%Q H0 Hrest) as [Hs Hh].
    split; [constructor; assumption|].
    constructor. rewrite <- (Qplus_0_r acc) at 1. apply Qplus_le_r. exact Hm.
Qed.

(** C9: when every message's delta (in seconds) is non-negative, the
    [notes_time] list built by [load_midi] is non-decreasing and its first
    entry (the time of the first non-meta message) is at least 0. *)
Theorem notes_time_monotone msgs :
  Forall (fun m => 0 <= sec_time m)%Q msgs ->
  Sorted Qle (notes_time msgs)
  /\ (forall t, hd_error (notes_time msgs) = Some t -> 0 <= t)%Q.
Proof.
  intros Hall. destruct (notes_time_from_sorted msgs 0 (Qle_refl 0) Hall) as [Hs Hh].
  split; [exact Hs|]. unfold notes_time in *.
  intros t Ht. destruct (notes_time_from 0 msgs) as [|x l]; [discriminate|].
  injection Ht as <-. inversion Hh. assumption.
Qed.

Lemma notes_time_monotone_witness :
  Forall (fun m => 0 <= sec_time m)%Q
    [mkSecMsg true (1 # 2); mkSecMsg false 0; mkSecMsg false (1 # 4)]
  /\ Sorted Qle (notes_time [mkSecMsg true (1 # 2); mkSecMsg false 0; mkSecMsg false (1 # 4)])
  /\ (forall t, hd_error (notes_time [mkSecMsg true (1 # 2); mkSecMsg false 0;
                                      mkSecMsg false (1 # 4)]) = Some t -> 0 <= t)%Q.
Proof.
  assert (H : Forall (fun m => 0 <= sec_time m)%Q
    [mkSecMsg true (1 # 2); mkSecMsg false 0; mkSecMsg false (1 # 4)]).
  { repeat constructor; simpl; unfold Qle; simpl; lia. }
  split; [exact H|exact (notes_time_monotone _ H)].
Defined.

(** ** Song loading ([load_midi], [get_tempo]) *)


Lemma nth_assign_from k0 off tracks k :
  nth k (assign_from k0 off tracks) []
  = map (assign_msg (k0 + Z.of_nat k + off)) (nth k tracks []).
Proof.
  revert k0 k. induction tracks as [|t ts IH]; intros k0 k.
  - destruct k; reflexivity.
  - destruct k as [|k]; simpl.
    + f_equal. f_equal. lia.
    + rewrite IH. f_equal. f_equal. lia.
Qed.

Lemma length_assign_from k0 off tracks :
  length (assign_from k0 off tracks) = length tracks.
Proof.
  revert k0. induction tracks as [|t ts IH]; intros k0; simpl; [reflexivity|].
  now rewrite IH.
Qed.

Lemma assign_msg_other ch m :
  is_meta (assign_msg ch m) = is_meta m
  /\ is_note_msg (assign_msg ch m) = is_note_msg m
  /\ (is_meta m || negb (is_note_msg m) = true -> assign_msg ch m = m).
Proof.
  unfold assign_msg. destruct (is_meta m) eqn:Hm, (is_note_msg m) eqn:Hn;
  simpl; rewrite ?Hm, ?Hn; try (repeat split; reflexivity).
  unfold is_note_msg in *; simpl. repeat split; [exact Hn|discriminate].
Qed.

Lemma filter_assign_msg ch t :
  filter (fun m => is_meta m || negb (is_note_msg m)) (map (assign_msg ch) t)
  = filter (fun m => is_meta m || negb (is_note_msg m)) t.
Proof.
  induction t as [|m t IH]; simpl; [reflexivity|].
  destruct (assign_msg_other ch m) as (H1 & H2 & H3).
  rewrite H1, H2. destruct (is_meta m || negb (is_note_msg m)) eqn:Hc.
  - rewrite H3 by reflexivity. f_equal. exact IH.
  - exact IH.
Qed.

Lemma assign_channels_props tracks :
  length (assign_channels tracks) = length tracks
  /\ forall k,
       (forall m, In m (nth k (assign_channels tracks) []) ->
          is_meta m = false -> is_note_msg m = true ->
          channel m = Z.of_nat k + (if Nat.eqb (length tracks) 2 then 1 else 0)
          /\ (mtype m = NoteOff -> velocity m = 0))
       /\ filter (fun m => is_meta m || negb (is_note_msg m))
            (nth k (assign_channels tracks) [])
          = filter (fun m => is_meta m || negb (is_note_msg m)) (nth k tracks []).
Proof.
  unfold assign_channels, track_offset. split; [apply length_assign_from|].
  intros k. rewrite nth_assign_from. split; [|apply filter_assign_msg].
  intros m Hin Hmeta Hnote. apply in_map_iff in Hin as (m0 & <- & _).
  unfold assign_msg in *.
  destruct (negb (is_meta m0) && is_note_msg m0) eqn:Hc.
  - simpl. split; [lia|]. intros ->. reflexivity.
  - rewrite Hmeta, Hnote in Hc. discriminate.
Qed.


Lemma assign_track_checked_some ch t t' :
  assign_track_checked ch t = Some t' -> t' = map (assign_msg ch) t.
Proof.
  revert t'. induction t as [|m t IH]; intros t' H; cbn [assign_track_checked] in H.
  - injection H as <-. reflexivity.
  - destruct (negb (is_meta m) && is_note_msg m && negb (channel_in_range ch));
      [discriminate|].
    destruct (assign_track_checked ch t) as [t0|] eqn:E; [|discriminate].
    injection H as <-. cbn [map]. f_equal. apply IH. reflexivity.
Qed.

Lemma assign_track_checked_none ch t :
  assign_track_checked ch t = None
  <-> exists m, In m t /\ is_meta m = false /\ is_note_msg m = true
               /\ channel_in_range ch = false.
Proof.
  induction t as [|m t IH]; cbn [assign_track_checked].
  - split; [discriminate|]. intros (m & [] & _).
  - destruct (negb (is_meta m) && is_note_msg m && negb (channel_in_range ch)) eqn:Hc.
    + split; [intros _|reflexivity]. exists m.
      apply andb_prop in Hc as [Hc Hr]. apply andb_prop in Hc as [Hm Hn].
      apply negb_true_iff in Hm, Hr. repeat split; [left; reflexivity|assumption..].
    + destruct (assign_track_checked ch t) eqn:E.
      * split; [discriminate|]. intros (m' & [<-|Hin] & Hm & Hn & Hr).
        -- rewrite Hm, Hn, Hr in Hc. discriminate.
        -- assert (Some l = None) by (apply IH; exists m'; auto). discriminate.
      * split; [intros _|reflexivity].
        destruct (proj1 IH eq_refl) as (m' & Hin & H). exists m'. split; [right|]; assumption.
Qed.

Lemma assign_from_checked_some k0 off tracks ts :
  assign_from_checked k0 off tracks = Some ts -> ts = assign_from k0 off tracks.
Proof.
  revert k0 ts. induction tracks as [|t tracks IH]; intros k0 ts H;
    cbn [assign_from_checked] in H.
  - injection H as <-. reflexivity.
  - destruct (assign_track_checked (k0 + off) t) as [t'|] eqn:Ht; [|discriminate].
    destruct (assign_from_checked (k0 + 1) off tracks) as [ts'|] eqn:E; [|discriminate].
    injection H as <-. cbn [assign_from].
    rewrite (assign_track_checked_some _ _ _ Ht), (IH _ _ E). reflexivity.
Qed.

Lemma assign_from_checked_none k0 off tracks :
  0 <= k0 + off ->
  assign_from_checked k0 off tracks = None
  <-> exists k t m, nth_error tracks k = Some t /\ In m t
        /\ is_meta m = false /\ is_note_msg m = true
        /\ 15 < k0 + Z.of_nat k + off.
Proof.
  revert k0. induction tracks as [|t tracks IH]; intros k0 Hk0; cbn [assign_from_checked].
  - split; [discriminate|]. intros (k & t & m & Hn & _). destruct k; discriminate.
  - destruct (assign_track_checked (k0 + off) t) as [t'|] eqn:Ht.
    + assert (Hno : forall m, In m t -> is_meta m = false -> is_note_msg m = true ->
                    k0 + off <= 15).
      { intros m Hin Hm Hn. destruct (channel_in_range (k0 + off)) eqn:Hr.
        - unfold channel_in_range in Hr. apply andb_prop in Hr as [_ Hr].
          apply Z.leb_le in Hr. exact Hr.
        - assert (Hc : assign_track_checked (k0 + off) t = None)
            by (apply assign_track_checked_none; exists m; repeat split; assumption).
          rewrite Ht in Hc. discriminate. }
      specialize (IH (k0 + 1) ltac:(lia)).
      destruct (assign_from_checked (k0 + 1) off tracks) as [ts'|] eqn:E.
      * split; [discriminate|]. intros (k & t0 & m & Hn & Hin & Hm & Hnt & Hlt).
        destruct k as [|k].
        -- injection Hn as <-. specialize (Hno m Hin Hm Hnt). lia.
        -- assert (Some ts' = None); [|discriminate].
           apply IH. exists k, t0, m. repeat split; try assumption. lia.
      * split; [intros _|reflexivity].
        destruct (proj1 IH eq_refl) as (k & t0 & m & Hn & Hin & Hm & Hnt & Hlt).
        exists (S k), t0, m. repeat split; try assumption. lia.
    + split; [intros _|reflexivity].
      destruct (proj1 (assign_track_checked_none _ _) Ht) as (m & Hin & Hm & Hn & Hr).
      exists 0%nat, t, m. repeat split; try assumption.
      unfold channel_in_range in Hr. apply andb_false_iff in Hr as [Hr|Hr];
        [apply Z.leb_gt in Hr; lia|apply Z.leb_gt in Hr; lia].
Qed.

(** X2: [load_midi] fails (mido's [ValueError], [loading = 5]) exactly when
    some track [k] holds a note message and [k + offset] is above 15
    ([offset] is 1 for a file of exactly two tracks, else 0). Otherwise
    it keeps the number of tracks, gives every note message of track [k]
    the channel [k + offset] and velocity 0 to every [note_off], and
    leaves the other messages as they are. *)
Theorem load_midi_channels tracks :
  (assign_channels_checked tracks = None
   <-> exists k t m, nth_error tracks k = Some t /\ In m t
         /\ is_meta m = false /\ is_note_msg m = true
         /\ 15 < Z.of_nat k + (if Nat.eqb (length tracks) 2 then 1 else 0))
  /\ forall ts, assign_channels_checked tracks = Some ts ->
       length ts = length tracks
       /\ forall k,
            (forall m, In m (nth k ts []) ->
               is_meta m = false -> is_note_msg m = true ->
               channel m = Z.of_nat k + (if Nat.eqb (length tracks) 2 then 1 else 0)
               /\ (mtype m = NoteOff -> velocity m = 0))
            /\ filter (fun m => is_meta m || negb (is_note_msg m)) (nth k ts [])
               = filter (fun m => is_meta m || negb (is_note_msg m)) (nth k tracks []).
Proof.
  unfold assign_channels_checked. split.
  - rewrite (assign_from_checked_none 0 (track_offset tracks) tracks)
      by (unfold track_offset; destruct (Nat.eqb _ _); lia).
    unfold track_offset. reflexivity.
  - intros ts H. apply assign_from_checked_some in H. subst ts.
    apply (assign_channels_props tracks).
Qed.

Lemma nth_error_snoc {A} (l : list A) x j y :
  nth_error (l ++ [x]) j = Some y ->
  nth_error l j = Some y \/ (j = length l /\ y = x).
Proof.
  intros H. destruct (Nat.lt_ge_cases j (length l)) as [Hlt|Hge].
  - left. rewrite nth_error_app1 in H by exact Hlt. exact H.
  - right. rewrite nth_error_app2 in H by exact Hge.
    destruct (j - length l)%nat as [|k] eqn:E; simpl in H.
    + split; [lia|congruence].
    + destruct k; discriminate.
Qed.

Lemma argmin_loop_spec target l : forall pre bi y,
  nth_error pre bi = Some y ->
  (forall j x, nth_error pre j = Some x ->
     (Qabs (y - target) <= Qabs (x - target))%Q
     /\ ((j < bi)%nat -> (Qabs (y - target) < Qabs (x - target))%Q)) ->
  exists y', nth_error (pre ++ l)
               (argmin_loop bi (Qabs (y - target)) (length pre) l target) = Some y'
    /\ (forall j x, nth_error (pre ++ l) j = Some x ->
          (Qabs (y' - target) <= Qabs (x - target))%Q
          /\ ((j < argmin_loop bi (Qabs (y - target)) (length pre) l target)%nat ->
              (Qabs (y' - target) < Qabs (x - target))%Q)).
Proof.
  induction l as [|x xs IH]; intros pre bi y Hy Hmin; cbn [argmin_loop].
  - rewrite app_nil_r. exists y. split; assumption.
  - replace (pre ++ x :: xs) with ((pre ++ [x]) ++ xs) by now rewrite <- app_assoc.
    assert (Hbi : (bi < length pre)%nat)
      by (apply nth_error_Some; congruence).
    destruct (Qle_bool (Qabs (y - target)) (Qabs (x - target))) eqn:Hle;
      cbn [negb].
    + apply Qle_bool_iff in Hle.
      replace (S (length pre)) with (length (pre ++ [x]))
        by (rewrite length_app; simpl; lia).
      apply IH.
      * rewrite nth_error_app1 by exact Hbi. exact Hy.
      * intros j z Hz. apply nth_error_snoc in Hz as [Hz|[-> ->]].
        -- apply Hmin with (j := j); exact Hz.
        -- split; [exact Hle|lia].
    + assert (Hlt : (Qabs (x - target) < Qabs (y - target))%Q).
      { apply Qnot_le_lt. intros H. apply Qle_bool_iff in H. congruence. }
      replace (S (length pre)) with (length (pre ++ [x]))
        by (rewrite length_app; simpl; lia).
      apply IH.
      * rewrite nth_error_app2 by lia. rewrite Nat.sub_diag. reflexivity.
      * intros j z Hz. apply nth_error_snoc in Hz as [Hz|[-> ->]].
        -- destruct (Hmin j z Hz) as [H1 _].
           assert (Hj : (j < length pre)%nat)
             by (apply nth_error_Some; congruence).
           assert (H2 : (Qabs (x - target) < Qabs (z - target))%Q)
             by (eapply Qlt_le_trans; [exact Hlt|exact H1]).
           split; [apply Qlt_le_weak; exact H2|intros _; exact H2].
        -- split; [apply Qle_refl|lia].
Qed.

(** X3: [find_nearest] raises on an empty array; otherwise it returns an
    index of the array whose value is nearest to the target, the first one
    among equally near values. *)
Theorem find_nearest_spec array target :
  (find_nearest array target = None <-> array = [])
  /\ (forall i, find_nearest array target = Some i ->
        exists y, nth_error array i = Some y
        /\ forall j x, nth_error array j = Some x ->
             (Qabs (y - target) <= Qabs (x - target))%Q
             /\ ((j < i)%nat -> (Qabs (y - target) < Qabs (x - target))%Q)).
Proof.
  split.
  - destruct array; simpl; split; congruence.
  - intros i. destruct array as [|a rest]; simpl; [discriminate|].
    intros [= <-].
    apply (argmin_loop_spec target rest [a] 0 a); [reflexivity|].
    intros j x Hx. destruct j as [|j]; simpl in Hx.
    + injection Hx as <-. split; [apply Qle_refl|lia].
    + destruct j; discriminate.
Qed.

(** Two values are equally near 0; the first one is chosen. *)
Example find_nearest_first_tie :
  find_nearest [3; 1 # 2; 2; 1 # 2]%Q 0 = Some 1%nat.
Proof. vm_compute. reflexivity. Qed.

(** ** Key colours and the renderer's keyboard *)

Lemma is_black_pc_mem k : is_black_pc k = mem k [1; 3; 6; 8; 10].
Proof.
  unfold is_black_pc, mem. simpl.
  destruct (k =? 1), (k =? 3), (k =? 6), (k =? 8), (k =? 10); reflexivity.
Qed.

Lemma piano_keys_wf :
  forallb (fun k => Bool.eqb (key_is_black k) (is_black_pc (key_midi_note k mod 12))
                    && (key_width k =? if key_is_black k then 12 else 20))
    piano_keys = true.
Proof. vm_compute. reflexivity. Qed.

Lemma find_key_spec n k :
  find_key n = Some k ->
  key_midi_note k = n /\ key_is_black k = is_black_pc (n mod 12)
  /\ key_width k = (if key_is_black k then 12 else 20).
Proof.
  unfold find_key. intros Hf. apply find_some in Hf as [Hin Heq].
  apply Z.eqb_eq in Heq. subst n.
  pose proof piano_keys_wf as Hwf. rewrite forallb_forall in Hwf.
  specialize (Hwf k Hin). apply andb_true_iff in Hwf as [H1 H2].
  apply Bool.eqb_prop in H1. apply Z.eqb_eq in H2. auto.
Qed.

(** X4: every note the renderer draws is on a key of the 88-key layout
    (MIDI 21 to 108) and is marked as a black key exactly when
    [LearnMIDI.get_note_type] calls its note black; black keys are drawn 12
    wide and white keys 20 wide, with the configured [note_height]. *)
Theorem frame_keys_match_note_type r fr :
  generate_frame_data r = Some fr ->
  forall v, In v (fr_notes fr) ->
    (v_is_black_key v = true <-> get_note_type (v_midi_note v) = Black)
    /\ v_width v = (if v_is_black_key v then 12 else 20)
    /\ 21 <= v_midi_note v <= 108
    /\ v_height v = note_height (settings r).
Proof.
  intros Hfr v Hv. unfold generate_frame_data in Hfr.
  destruct (visible_notes r (notes_buffer r)) as [vs|] eqn:Hvs; [|discriminate].
  injection Hfr as <-. simpl in Hv.
  apply (visible_notes_spec _ _ _ Hvs v) in Hv as (nd & k & _ & _ & Hk & ->).
  destruct (find_key_spec _ _ Hk) as (Hn & Hb & Hw).
  unfold visible_of; simpl. repeat split.
  - intros H. unfold get_note_type. rewrite <- is_black_pc_mem, <- Hb, H.
    reflexivity.
  - unfold get_note_type. rewrite <- is_black_pc_mem, <- Hb.
    destruct (key_is_black k); congruence.
  - exact Hw.
  - apply find_key_range. exists k. exact Hk.
  - apply find_key_range. exists k. exact Hk.
Qed.

Lemma frame_keys_match_note_type_witness :
  exists fr, generate_frame_data renderer_at_5 = Some fr
  /\ forall v, In v (fr_notes fr) ->
    (v_is_black_key v = true <-> get_note_type (v_midi_note v) = Black)
    /\ v_width v = (if v_is_black_key v then 12 else 20)
    /\ 21 <= v_midi_note v <= 108
    /\ v_height v = note_height (settings renderer_at_5).
Proof.
  eexists. assert (H : generate_frame_data renderer_at_5 = Some _)
    by (vm_compute; reflexivity).
  split; [exact H|exact (frame_keys_match_note_type _ _ H)].
Defined.

(** ** Predicted notes ([predict_future_notes]) *)

Lemma predict_loop_no_lit_outside_melody cfg ntp acc msgs :
  practice cfg <> 0 ->
  predict_loop cfg ntp acc msgs = NotLit
  \/ (predict_loop cfg ntp acc msgs = Raised /\ tdelay_raises cfg = true).
Proof.
  intros Hp. revert acc. induction msgs as [|m msgs IH]; intros acc; simpl.
  - left. reflexivity.
  - destruct (tdelay_raises cfg) eqn:Hr; [right; split; reflexivity|].
    replace (practice cfg =? 0) with false by (symmetry; apply Z.eqb_neq; exact Hp).
    rewrite andb_false_r. apply IH.
Qed.

(** X5: [predict_future_notes] lights nothing when [show_future_notes] is
    not 1 or when the practice mode is not Melody (0); it can only fail by
    the division by zero of [tick2second] (a [set_tempo] or
    [ticks_per_beat] of 0). *)
Theorem predict_only_in_melody sfn cfg song a b ntp :
  (sfn <> 1 -> predict_future_notes sfn cfg song a b ntp = NotLit)
  /\ (practice cfg <> 0 ->
      predict_future_notes sfn cfg song a b ntp = NotLit
      \/ predict_future_notes sfn cfg song a b ntp = Raised)
  /\ (predict_future_notes sfn cfg song a b ntp = Raised ->
      set_tempo cfg = 0 \/ ticks_per_beat cfg = 0).
Proof.
  unfold predict_future_notes. split; [|split].
  - intros H. apply Z.eqb_neq in H. now rewrite H.
  - intros Hp. destruct (negb (sfn =? 1)); [now left|].
    destruct (predict_loop_no_lit_outside_melody cfg ntp []
                (py_slice song a b) Hp) as [H|[H _]]; rewrite H; auto.
  - destruct (negb (sfn =? 1)); [discriminate|].
    generalize (@nil Msg). induction (py_slice song a b) as [|m l IH];
      intros acc; simpl; [discriminate|].
    destruct (tdelay_raises cfg) eqn:Hr.
    + intros _. unfold tdelay_raises in Hr. apply orb_true_iff in Hr.
      destruct Hr as [H|H]; apply Z.eqb_eq in H; auto.
    + destruct (_ && _); [discriminate|]. apply IH.
Qed.

Lemma collected_cons ntp m l :
  collected ntp (m :: l)
  = (if msgtype_eqb (mtype m) NoteOn && (velocity m >? 0)
        && negb (mem (note m) ntp) then [m] else []) ++ collected ntp l.
Proof. unfold collected. simpl. destruct (_ && _ && _); reflexivity. Qed.

Lemma predict_loop_lit cfg ntp msgs : forall acc l,
  tdelay_raises cfg = false -> practice cfg = 0 ->
  (predict_loop cfg ntp acc msgs = Lit l <->
   exists pre m post, msgs = pre ++ m :: post
     /\ delayed_note cfg m = true
     /\ l = acc ++ collected ntp pre /\ l <> []
     /\ forall pre' m' post', pre = pre' ++ m' :: post' ->
          delayed_note cfg m' = true -> acc ++ collected ntp pre' = []).
Proof.
  induction msgs as [|m0 rest IH]; intros acc l Hr Hp; simpl.
  - split; [discriminate|]. intros (pre & m & post & E & _).
    destruct pre; discriminate.
  - rewrite Hr, Hp. simpl Z.eqb. rewrite andb_true_r.
    unfold delayed_note.
    destruct (negb (is_meta m0) && negb (Qle_bool (tDelay cfg m0) 0)
              && is_note_msg m0) eqn:Hd; simpl andb.
    + destruct (is_nil acc) eqn:Hn; simpl negb.
      * (* [predicted] is still empty: the message is collected or not *)
        destruct acc; [|discriminate]. simpl app.
        rewrite IH by assumption. fold (delayed_note cfg m0) in Hd.
        split.
        -- intros (pre & m & post & -> & Hm & -> & Hne & Hfirst).
           exists (m0 :: pre), m, post. split; [reflexivity|].
           split; [exact Hm|]. rewrite collected_cons. split; [reflexivity|].
           split; [exact Hne|].
           intros pre' m' post' E Hm'. destruct pre' as [|p pre'].
           ++ reflexivity.
           ++ injection E as <- E. rewrite collected_cons.
              apply (Hfirst pre' m' post' E Hm').
        -- intros (pre & m & post & E & Hm & -> & Hne & Hfirst).
           destruct pre as [|p pre].
           ++ exfalso. simpl in Hne. apply Hne. reflexivity.
           ++ injection E as <- E. exists pre, m, post.
              split; [exact E|]. split; [exact Hm|].
              rewrite collected_cons. split; [reflexivity|].
              split; [rewrite collected_cons in Hne; exact Hne|].
              intros pre' m' post' -> Hm'.
              rewrite <- collected_cons.
              apply (Hfirst (m0 :: pre') m' post'); [reflexivity|exact Hm'].
      * (* a delayed note after collected notes: they are lit *)
        fold (delayed_note cfg m0) in Hd. split.
        -- intros [= <-]. exists [], m0, rest. rewrite app_nil_r.
           split; [reflexivity|]. split; [exact Hd|]. split; [reflexivity|].
           split; [destruct acc; discriminate|].
           intros pre' m' post' E. destruct pre'; discriminate.
        -- intros (pre & m & post & E & Hm & -> & Hne & Hfirst).
           destruct pre as [|p pre].
           ++ rewrite app_nil_r. reflexivity.
           ++ injection E as <- E. exfalso.
              specialize (Hfirst [] m0 pre eq_refl Hd). rewrite app_nil_r in Hfirst.
              subst acc. discriminate.
    + rewrite IH by assumption. split.
      * intros (pre & m & post & -> & Hm & -> & Hne & Hfirst).
        exists (m0 :: pre), m, post. split; [reflexivity|].
        split; [exact Hm|]. rewrite collected_cons.
        split; [destruct (msgtype_eqb (mtype m0) NoteOn && (velocity m0 >? 0) && negb (mem (note m0) ntp)); rewrite <- ?app_assoc; reflexivity|].
        split; [exact Hne|].
        intros pre' m' post' E Hm'. destruct pre' as [|p pre'].
        -- injection E as <- _. unfold delayed_note in Hm'. congruence.
        -- injection E as <- E. rewrite collected_cons, app_assoc.
           specialize (Hfirst pre' m' post' E Hm').
           destruct (msgtype_eqb (mtype m0) NoteOn && (velocity m0 >? 0) && negb (mem (note m0) ntp)); rewrite ?app_nil_r in *; exact Hfirst.
      * intros (pre & m & post & E & Hm & -> & Hne & Hfirst).
        destruct pre as [|p pre].
        -- injection E as <- _. unfold delayed_note in Hm. congruence.
        -- injection E as <- E. exists pre, m, post.
           split; [exact E|]. split; [exact Hm|].
           rewrite collected_cons.
           split; [destruct (msgtype_eqb (mtype m0) NoteOn && (velocity m0 >? 0) && negb (mem (note m0) ntp)); rewrite <- ?app_assoc; reflexivity|].
           split.
           ++ rewrite collected_cons in Hne.
              destruct (msgtype_eqb (mtype m0) NoteOn && (velocity m0 >? 0) && negb (mem (note m0) ntp)); rewrite <- ?app_assoc; exact Hne.
           ++ intros pre' m' post' -> Hm'.
              specialize (Hfirst (m0 :: pre') m' post' eq_refl Hm').
              rewrite collected_cons in Hfirst.
              destruct (msgtype_eqb (mtype m0) NoteOn && (velocity m0 >? 0) && negb (mem (note m0) ntp)); rewrite <- ?app_assoc; exact Hfirst.
Qed.

(** X6: in Melody practice, with the display on and no zero divisor,
    [predict_future_notes] lights a list [l] exactly when the slice it
    scans splits as [pre ++ m :: post], where [m] is a non-meta note
    message with a positive delay, [l] (non-empty) is the note-ons of
    [pre] with velocity > 0 that are not in [notes_to_press], and no
    earlier delayed note message of [pre] came after a collected note:
    the notes of the next chord, or of the first later chord that has
    notes not already awaited. *)
Theorem predict_future_notes_lit cfg song a b ntp l :
  set_tempo cfg <> 0 -> ticks_per_beat cfg <> 0 -> practice cfg = 0 ->
  (predict_future_notes 1 cfg song a b ntp = Lit l <->
   exists pre m post, py_slice song a b = pre ++ m :: post
     /\ delayed_note cfg m = true
     /\ l = collected ntp pre /\ l <> []
     /\ forall pre' m' post', pre = pre' ++ m' :: post' ->
          delayed_note cfg m' = true -> collected ntp pre' = []).
Proof.
  intros Hs Ht Hp. unfold predict_future_notes. simpl negb. cbn iota.
  apply (predict_loop_lit cfg ntp _ [] l); [|exact Hp].
  unfold tdelay_raises. apply Z.eqb_neq in Hs, Ht. now rewrite Hs, Ht.
Qed.

Lemma predict_future_notes_lit_witness :
  let cfg := mkConfig 0 1 0 1 3 1 0 100 500000 480 100 in
  let song := [on 60 1 0; on 64 1 10; on 48 2 0; on 67 1 10] in
  predict_future_notes 1 cfg song 1 4 [60] = Lit [on 64 1 10; on 48 2 0]
  /\ exists pre m post, py_slice song 1 4 = pre ++ m :: post
     /\ delayed_note cfg m = true
     /\ [on 64 1 10; on 48 2 0] = collected [60] pre
     /\ [on 64 1 10; on 48 2 0] <> []
     /\ forall pre' m' post', pre = pre' ++ m' :: post' ->
          delayed_note cfg m' = true -> collected [60] pre' = [].
Proof.
  intros cfg song.
  assert (H : predict_future_notes 1 cfg song 1 4 [60] = Lit [on 64 1 10; on 48 2 0])
    by (vm_compute; reflexivity).
  split; [exact H|].
  apply (predict_future_notes_lit cfg song 1 4 [60]); try discriminate.
  - reflexivity.
  - exact H.
Defined.

(** ** The practice pass *)

Lemma gate_wait_idx cfg rounds s :
  match gate_wait cfg rounds s with
  | GateDone s' | GateWaiting s' => current_idx s' = current_idx s
  end.
Proof.
  revert s. induction rounds as [|r rs IH]; intros s; simpl.
  - destruct (_ && _); [destruct (awaiting_restart_loop s)|]; reflexivity.
  - destruct (_ && _); [|reflexivity].
    destruct (awaiting_restart_loop s); [reflexivity|].
    destruct (drain (rd_batch r) s []) as [s1 w] eqn:Hd.
    pose proof (drain_frame (rd_batch r) s []) as Hf. rewrite Hd in Hf.
    simpl in Hf. destruct Hf as (_ & Hi & _).
    pose proof (gate_round_frame cfg r w s1) as (_ & _ & Hg). simpl in Hg.
    specialize (IH (external r (handle_wrong_notes cfg w s1))).
    destruct (gate_wait cfg rs _); congruence.
Qed.

Ltac case_ifs :=
  repeat match goal with
         | |- context [if ?c then _ else _] => destruct c
         end.

Lemma record_notes_idx cfg m s :
  current_idx (record_notes cfg m s) = current_idx s.
Proof. unfold record_notes, send, set_pending, set_notes_to_press; case_ifs; reflexivity. Qed.

Lemma flush_pending_idx clock s :
  current_idx (flush_pending clock s) = current_idx s.
Proof. unfold flush_pending, send_pending, set_pending, set_next_note_time; case_ifs; reflexivity. Qed.

Lemma check_notes_idx cfg rounds td m s s' :
  check_notes cfg rounds td m s = GateDone s' ->
  current_idx s' = current_idx s + (if is_meta m then 0 else 1).
Proof.
  unfold check_notes. destruct (is_meta m).
  - intros [= <-]. lia.
  - set (s1 := set_current_idx (current_idx s + 1) s).
    destruct (gate_condition cfg td m s1).
    + pose proof (gate_wait_idx cfg rounds
        (set_next_note_time true (set_notes_pressed [] s1))) as Hw.
      destruct (gate_wait _ _ _); [|discriminate].
      intros [= <-]. unfold gate_release, send_pending, set_pending, set_notes_to_press.
      case_ifs; simpl in *; rewrite Hw; simpl; lia.
    + intros [= <-]. simpl. lia.
Qed.

Lemma step_msg_idx cfg e s m s' :
  step_msg cfg e s m = StepNext s' ->
  current_idx s' = current_idx s + (if is_meta m then 0 else 1).
Proof.
  unfold step_msg. set (s0 := if me_stop e then set_started false s else s).
  assert (H0 : current_idx s0 = current_idx s)
    by (unfold s0; destruct (me_stop e); reflexivity).
  destruct (negb (is_started_midi s0)); [discriminate|].
  destruct (check_notes cfg (me_rounds e) (tDelay cfg m) m s0) as [s1|s1] eqn:Hc;
    [|discriminate].
  apply check_notes_idx in Hc.
  pose proof (record_notes_idx cfg m s1) as Hr.
  pose proof (flush_pending_idx (me_clock e) (record_notes cfg m s1)) as Hf.
  set (s3 := flush_pending (me_clock e) (record_notes cfg m s1)) in *.
  unfold restart_loop. destruct (me_restart e), (awaiting_restart_loop _);
    intros Hs; try discriminate; injection Hs as <-; simpl; lia.
Qed.

(** X7: [current_idx] counts the non-meta messages: a pass of
    [learn_midi] that runs through its slice moves it forward by the number
    of non-meta messages of the slice. *)
Theorem run_pass_current_idx cfg msgs envs s s' :
  run_pass cfg msgs envs s = PassEnd s' ->
  current_idx s' = current_idx s
                   + Z.of_nat (length (filter (fun m => negb (is_meta m)) msgs)).
Proof.
  revert envs s. induction msgs as [|m ms IH]; intros envs s; simpl.
  - intros [= <-]. lia.
  - destruct (step_msg cfg (hd env_idle envs) s m) as [s1|s1|s1] eqn:Hs;
      try discriminate.
    intros Hr. rewrite (IH _ _ Hr), (step_msg_idx _ _ _ _ _ Hs).
    destruct (is_meta m); simpl; lia.
Qed.

Lemma run_pass_current_idx_witness :
  run_pass cfg_melody_right song_meta_first [] engine0 = PassEnd
    (mkEngine 1 [] [60] [] 0 false true false [])
  /\ current_idx (mkEngine 1 [] [60] [] 0 false true false [])
     = current_idx engine0
       + Z.of_nat (length (filter (fun m => negb (is_meta m)) song_meta_first)).
Proof.
  assert (H : run_pass cfg_melody_right song_meta_first [] engine0 = PassEnd
    (mkEngine 1 [] [60] [] 0 false true false [])) by (vm_compute; reflexivity).
  split; [exact H|exact (run_pass_current_idx _ _ _ _ _ H)].
Defined.

Lemma check_notes_no_wait cfg rounds td m s :
  practice cfg <> 0 -> exists s', check_notes cfg rounds td m s = GateDone s'.
Proof.
  intros Hp. unfold check_notes. destruct (is_meta m); [eauto|].
  unfold gate_condition. apply Z.eqb_neq in Hp. rewrite Hp, andb_false_r. eauto.
Qed.

Lemma run_pass_no_wait cfg msgs envs s s' :
  practice cfg <> 0 -> run_pass cfg msgs envs s <> PassSuspended s'.
Proof.
  intros Hp. revert envs s. induction msgs as [|m ms IH]; intros envs s; simpl;
    [discriminate|].
  unfold step_msg at 1.
  destruct (negb _); [discriminate|].
  destruct (check_notes_no_wait cfg (me_rounds (hd env_idle envs))
              (tDelay cfg m) m
              (if me_stop (hd env_idle envs) then set_started false s else s) Hp)
    as [s1 Hc].
  rewrite Hc. destruct (awaiting_restart_loop _); [discriminate|]. apply IH.
Qed.

(** X8: outside Melody practice (Rhythm or Listen), [learn_midi] never
    waits for the player: whatever keys arrive, no pass stops at a gate. *)
Theorem learn_loop_never_waits cfg song passes s s' :
  practice cfg <> 0 -> snd (learn_loop cfg song passes s) <> RunSuspended s'.
Proof.
  intros Hp. revert s. induction passes as [|envs rest IH]; intros s; simpl;
    [discriminate|].
  pose proof (run_pass_no_wait cfg (song_slice cfg song) envs
                (enter_pass cfg song s) s' Hp) as Hr.
  destruct (run_pass _ _ _ _) as [s1|s1|s1] eqn:E.
  1, 2: destruct (negb (is_loop_active cfg =? 0) && is_started_midi s1);
        [destruct (learn_loop cfg song rest s1) as [es r] eqn:E2; simpl;
         specialize (IH s1); rewrite E2 in IH; exact IH|discriminate].
  simpl. intros [= ->]. apply Hr. reflexivity.
Qed.

Lemma learn_loop_never_waits_witness :
  1 <> 0 /\ snd (learn_loop (mkConfig 1 1 0 1 3 0 0 100 500000 480 100) song_a
                   [[env_gate [] false; env_gate [] false; env_gate [] false]]
                   engine0)
            <> RunSuspended engine0.
Proof.
  split; [discriminate|].
  apply (learn_loop_never_waits (mkConfig 1 1 0 1 3 0 0 100 500000 480 100)).
  discriminate.
Defined.

Lemma step_msg_listen cfg e s m :
  practice cfg = 2 -> me_stop e = false -> me_restart e = false ->
  is_started_midi s = true -> awaiting_restart_loop s = false ->
  pending_software_notes s = [] ->
  exists s', step_msg cfg e s m = StepNext s'
    /\ playport s' = playport s ++ (if is_meta m then [] else [m])
    /\ pending_software_notes s' = []
    /\ is_started_midi s' = true /\ awaiting_restart_loop s' = false.
Proof.
  intros Hp Hst Hre Hs Ha Hpd. unfold step_msg. rewrite Hst, Hs. simpl negb.
  cbn iota.
  assert (Hg : gate_condition cfg (tDelay cfg m) m
                 (set_current_idx (current_idx s + 1) s) = false)
    by (unfold gate_condition; rewrite Hp; simpl; now rewrite andb_false_r).
  unfold check_notes. destruct (is_meta m) eqn:Hm.
  - unfold record_notes. rewrite Hm. unfold flush_pending. rewrite Hpd. simpl.
    rewrite Hre, Ha. eexists. split; [reflexivity|].
    rewrite app_nil_r. repeat split; assumption.
  - rewrite Hg. unfold record_notes. rewrite Hm. simpl negb. cbn iota.
    unfold is_software_note. rewrite Hp. simpl Z.eqb. rewrite !orb_true_r.
    destruct (msgtype_eqb (mtype m) NoteOn && (velocity m >? 0)
              && ((channel m =? hands cfg) || (hands cfg =? 0)));
    unfold flush_pending, send; simpl; rewrite Hpd; simpl; rewrite Hre; simpl;
    rewrite Ha; eexists; (split; [reflexivity|]); simpl;
    repeat split; assumption.
Qed.

(** X9: in Listen practice ([practice = 2]), a pass that nobody stops or
    restarts, started with an empty software-note buffer, plays every
    non-meta message of its slice on the output port, in order, and ends
    with the buffer still empty. This holds when no message raises: line
    477 raises [ZeroDivisionError] when [set_tempo] or [ticks_per_beat] is
    0, and lines 597-601 read [msg.channel], which a channel-less message
    such as a sysex lacks, unless [hands] is 0, or [hands] is 1 with
    [mute_hand = 2], or [hands] is 2 with [mute_hand = 1]. In those
    configurations the slice's non-meta messages are taken to be note
    messages. *)
Theorem listen_pass_plays_slice cfg msgs envs s :
  practice cfg = 2 ->
  set_tempo cfg <> 0 -> ticks_per_beat cfg <> 0 ->
  ((hands cfg = 1 /\ mute_hand cfg <> 2) \/ (hands cfg = 2 /\ mute_hand cfg <> 1) ->
   Forall (fun m => is_meta m = false -> is_note_msg m = true) msgs) ->
  Forall (fun e => me_stop e = false /\ me_restart e = false) envs ->
  is_started_midi s = true -> awaiting_restart_loop s = false ->
  pending_software_notes s = [] ->
  exists s', run_pass cfg msgs envs s = PassEnd s'
    /\ playport s' = playport s ++ filter (fun m => negb (is_meta m)) msgs
    /\ pending_software_notes s' = [].
Proof.
  intros Hp _ _ _. revert envs s.
  induction msgs as [|m ms IH]; intros envs s He Hs Ha Hpd.
  - exists s. simpl. rewrite app_nil_r. auto.
  - assert (He0 : me_stop (hd env_idle envs) = false
                  /\ me_restart (hd env_idle envs) = false)
      by (destruct envs as [|e envs]; [split; reflexivity|inversion He; auto]).
    destruct He0 as [Hst Hre].
    destruct (step_msg_listen cfg (hd env_idle envs) s m Hp Hst Hre Hs Ha Hpd)
      as (s1 & Hstep & Hpl & Hpd1 & Hs1 & Ha1).
    assert (Het : Forall (fun e => me_stop e = false /\ me_restart e = false) (tl envs))
      by (destruct envs; [constructor|inversion He; assumption]).
    destruct (IH (tl envs) s1 Het Hs1 Ha1 Hpd1) as (s2 & Hr & Hpl2 & Hpd2).
    exists s2. simpl. rewrite Hstep. split; [exact Hr|]. split; [|exact Hpd2].
    rewrite Hpl2, Hpl, <- app_assoc. destruct (is_meta m); reflexivity.
Qed.

Lemma listen_pass_plays_slice_witness :
  exists s', run_pass (mkConfig 2 0 0 1 3 0 0 100 500000 480 100)
               song_meta_first [] engine0 = PassEnd s'
    /\ playport s' = playport engine0
                     ++ filter (fun m => negb (is_meta m)) song_meta_first
    /\ pending_software_notes s' = [].
Proof.
  apply listen_pass_plays_slice;
    [reflexivity|discriminate|discriminate
    |intros [[H _]|[H _]]; discriminate
    |constructor|reflexivity|reflexivity|reflexivity].
Defined.

(** ** Renderer geometry *)

Lemma layout_whites n : forall m w,
  map x_position (filter (fun k => negb (key_is_black k)) (layout_from n m w))
  = map (fun i => 20 * (w + Z.of_nat i))
      (seq 0 (length (filter (fun k => negb (key_is_black k)) (layout_from n m w))))
  /\ Forall (fun k => key_width k = 20)
       (filter (fun k => negb (key_is_black k)) (layout_from n m w)).
Proof.
  induction n as [|n IH]; intros m w; cbn [layout_from];
    [split; [reflexivity|constructor]|].
  destruct (is_black_pc (m mod 12)); cbn [negb filter key_is_black].
  - apply IH.
  - destruct (IH (m + 1) (w + 1)) as [H1 H2]. split; [|constructor; [reflexivity|exact H2]].
    cbn [map x_position length seq]. f_equal; [lia|]. rewrite H1, <- seq_shift, map_map.
    apply map_ext. intros i. rewrite Nat2Z.inj_succ. lia.
Qed.

(** X10: the keyboard of [_generate_piano_layout] has the 88 keys from
    MIDI 21 to 108 in order, 52 of them white; in every layout the loop
    builds, the white keys are 20 wide and placed left to right at
    [20 * white_key_count], so they tile the keyboard without gap or
    overlap. *)
Theorem piano_layout_tiles :
  map key_midi_note piano_keys = map (fun i => Z.of_nat i + 21) (seq 0 88)
  /\ length (filter (fun k => negb (key_is_black k)) piano_keys) = 52%nat
  /\ forall n m w,
       map x_position (filter (fun k => negb (key_is_black k)) (layout_from n m w))
       = map (fun i => 20 * (w + Z.of_nat i))
           (seq 0 (length (filter (fun k => negb (key_is_black k)) (layout_from n m w))))
       /\ Forall (fun k => key_width k = 20)
            (filter (fun k => negb (key_is_black k)) (layout_from n m w)).
Proof.
  split; [exact piano_keys_notes|]. split; [vm_compute; reflexivity|].
  intros n m w. apply layout_whites.
Qed.

(** X11: when [fall_distance] is positive, every note of a frame is drawn
    at [canvas_height - keyboard_height - 100 * (start_time - current_time)]
    for a buffered note of that MIDI number, hence between
    [canvas_height - keyboard_height - fall_distance] (entering the window)
    and [canvas_height - keyboard_height] (reaching the keys). *)
Theorem frame_y_range r fr :
  generate_frame_data r = Some fr -> (0 < fall_distance (settings r))%Q ->
  forall v, In v (fr_notes fr) ->
    (exists nd, In nd (notes_buffer r) /\ nd_midi_note nd = v_midi_note v
       /\ v_y_position v == canvas_height (settings r) - keyboard_height (settings r)
                            - 100 * (nd_start_time nd - current_time r))%Q
    /\ (canvas_height (settings r) - keyboard_height (settings r)
          - fall_distance (settings r)
        <= v_y_position v
        <= canvas_height (settings r) - keyboard_height (settings r))%Q.
Proof.
  intros Hfr HF v Hv. unfold generate_frame_data in Hfr.
  destruct (visible_notes r (notes_buffer r)) as [vs|] eqn:Hvs; [|discriminate].
  injection Hfr as <-. simpl in Hv.
  apply (visible_notes_spec _ _ _ Hvs v) in Hv as (nd & k & Hin & Hw & _ & ->).
  apply in_window_iff in Hw as [Hw1 Hw2].
  assert (Hy : (v_y_position (visible_of r nd k)
                == canvas_height (settings r) - keyboard_height (settings r)
                   - 100 * (nd_start_time nd - current_time r))%Q).
  { unfold visible_of, y_position, lookahead_time. simpl. field.
    intros H. rewrite H in HF. discriminate. }
  split; [exists nd; split; [exact Hin|split; [reflexivity|exact Hy]]|].
  change (fall_distance (settings r) / 100)%Q
    with (fall_distance (settings r) * (1 # 100))%Q in Hw2.
  rewrite Hy. split; lra.
Qed.

Lemma frame_y_range_witness :
  exists fr, generate_frame_data renderer_at_5 = Some fr
  /\ (0 < fall_distance (settings renderer_at_5))%Q
  /\ forall v, In v (fr_notes fr) ->
    (exists nd, In nd (notes_buffer renderer_at_5) /\ nd_midi_note nd = v_midi_note v
       /\ v_y_position v
          == canvas_height (settings renderer_at_5) - keyboard_height (settings renderer_at_5)
             - 100 * (nd_start_time nd - current_time renderer_at_5))%Q
    /\ (canvas_height (settings renderer_at_5) - keyboard_height (settings renderer_at_5)
          - fall_distance (settings renderer_at_5)
        <= v_y_position v
        <= canvas_height (settings renderer_at_5) - keyboard_height (settings renderer_at_5))%Q.
Proof.
  eexists. assert (H : generate_frame_data renderer_at_5 = Some _)
    by (vm_compute; reflexivity).
  assert (HF : (0 < fall_distance (settings renderer_at_5))%Q) by reflexivity.
  split; [exact H|split; [exact HF|exact (frame_y_range _ _ H HF)]].
Defined.

Lemma visible_notes_none r buf :
  visible_notes r buf = None <->
  Qeq_bool (lookahead_time r) 0 = true /\ exists nd, In nd buf /\ in_window r nd = true.
Proof.
  induction buf as [|nd buf IH]; simpl.
  - split; [discriminate|]. intros (_ & nd & [] & _).
  - destruct (in_window r nd) eqn:Hw.
    + destruct (Qeq_bool (lookahead_time r) 0) eqn:Hq.
      * split; [intros _; split; [reflexivity|exists nd; auto]|reflexivity].
      * split; [|intros [H _]; discriminate].
        destruct (visible_notes r buf) eqn:E.
        -- destruct (find_key _); discriminate.
        -- intros _. destruct (proj1 IH eq_refl) as [H _]. discriminate.
    + rewrite IH. split.
      * intros [Hq (nd' & Hin & Hw')]. split; [exact Hq|exists nd'; auto].
      * intros [Hq (nd' & [<-|Hin] & Hw')]; [congruence|].
        split; [exact Hq|exists nd'; auto].
Qed.

(** X12: with a positive or negative [fall_distance] a frame is always
    produced; with [fall_distance = 0], [_generate_frame_data] raises
    [ZeroDivisionError] exactly when a buffered note starts at
    [current_time]. *)
Theorem frame_zero_fall_distance r :
  (~ fall_distance (settings r) == 0 -> generate_frame_data r <> None)%Q
  /\ (fall_distance (settings r) == 0 ->
      (generate_frame_data r = None <->
       exists nd, In nd (notes_buffer r) /\ nd_start_time nd == current_time r))%Q.
Proof.
  assert (HL : Qeq_bool (lookahead_time r) 0 = true <-> (fall_distance (settings r) == 0)%Q).
  { unfold lookahead_time. rewrite Qeq_bool_iff. split; intros H.
    - setoid_replace (fall_distance (settings r)) with (fall_distance (settings r) / 100 * 100)%Q
        by (field; discriminate).
      rewrite H. reflexivity.
    - rewrite H. reflexivity. }
  assert (HG : generate_frame_data r = None <-> visible_notes r (notes_buffer r) = None)
    by (unfold generate_frame_data; destruct (visible_notes _ _); split; congruence).
  split.
  - intros HF E. apply HG, visible_notes_none in E as [Hq _]. apply HF, HL, Hq.
  - intros HF. rewrite HG, visible_notes_none. split.
    + intros [_ (nd & Hin & Hw)]. exists nd. split; [exact Hin|].
      apply in_window_iff in Hw as [H1 H2].
      change (fall_distance (settings r) / 100)%Q
        with (fall_distance (settings r) * (1 # 100))%Q in H2.
      rewrite HF in H2. apply Qle_antisym; lra.
    + intros (nd & Hin & Heq). split; [apply HL, HF|]. exists nd. split; [exact Hin|].
      apply in_window_iff.
      change (fall_distance (settings r) / 100)%Q
        with (fall_distance (settings r) * (1 # 100))%Q.
      rewrite HF, Heq. split; lra.
Qed.

(** ** Renderer clients and life cycle *)

Lemma client_eqb_spec a b : client_eqb a b = true <-> a = b.
Proof.
  destruct a as [ia oa], b as [ib ob]. unfold client_eqb. simpl.
  rewrite andb_true_iff, Z.eqb_eq. split.
  - intros [-> H]. apply Bool.eqb_prop in H. now subst.
  - intros [= -> ->]. split; [reflexivity|apply Bool.eqb_reflx].
Qed.

Lemma in_clients_add c d r :
  In d (websocket_clients (add_websocket_client c r))
  <-> d = c \/ In d (websocket_clients r).
Proof.
  unfold add_websocket_client.
  destruct (existsb (client_eqb c) (websocket_clients r)) eqn:E.
  - apply existsb_exists in E as (x & Hx & Hc). apply client_eqb_spec in Hc. subst x.
    split; [auto|intros [->|H]; auto].
  - simpl. rewrite in_app_iff. simpl.
    split; [intros [H|[H|[]]]; auto|intros [->|H]; auto].
Qed.

Lemma in_clients_remove c d r :
  In d (websocket_clients (remove_websocket_client c r))
  <-> d <> c /\ In d (websocket_clients r).
Proof.
  unfold remove_websocket_client. simpl. rewrite filter_In.
  destruct (client_eqb c d) eqn:E; simpl.
  - apply client_eqb_spec in E. subst. intuition congruence.
  - split; [intros [H _]; split; [intros ->|exact H]|intros [_ H]; auto].
    rewrite (proj2 (client_eqb_spec c c) eq_refl) in E. discriminate.
Qed.

Lemma add_client_nodup c r :
  NoDup (websocket_clients r) -> NoDup (websocket_clients (add_websocket_client c r)).
Proof.
  intros H. unfold add_websocket_client.
  destruct (existsb (client_eqb c) (websocket_clients r)) eqn:E; [exact H|].
  simpl. apply NoDup_app; [exact H|constructor; [intros []|constructor]|].
  intros x Hx [Hxc|[]]. subst x.
  assert (Hc : existsb (client_eqb c) (websocket_clients r) = true)
    by (apply existsb_exists; exists c; split; [exact Hx|apply client_eqb_spec; reflexivity]).
  congruence.
Qed.

(** X13: the client collection behaves as a set: a client is present
    after [add_websocket_client] and absent after
    [remove_websocket_client], adding twice is adding once, removing a
    client right after adding it gives the collection without it, no other
    client is affected, and the collection never holds a client twice. *)
Theorem websocket_clients_set c r :
  In c (websocket_clients (add_websocket_client c r))
  /\ ~ In c (websocket_clients (remove_websocket_client c r))
  /\ add_websocket_client c (add_websocket_client c r) = add_websocket_client c r
  /\ websocket_clients (remove_websocket_client c (add_websocket_client c r))
     = websocket_clients (remove_websocket_client c r)
  /\ (forall d, d <> c ->
        (In d (websocket_clients (add_websocket_client c r)) <-> In d (websocket_clients r))
        /\ (In d (websocket_clients (remove_websocket_client c r))
            <-> In d (websocket_clients r)))
  /\ (NoDup (websocket_clients r) ->
      NoDup (websocket_clients (add_websocket_client c r))
      /\ NoDup (websocket_clients (remove_websocket_client c r))).
Proof.
  split; [apply in_clients_add; auto|].
  split; [rewrite in_clients_remove; tauto|].
  split.
  - unfold add_websocket_client at 1.
    replace (existsb (client_eqb c) (websocket_clients (add_websocket_client c r)))
      with true; [reflexivity|].
    symmetry. apply existsb_exists. exists c.
    split; [apply in_clients_add; auto|apply client_eqb_spec; reflexivity].
  - split.
    + unfold remove_websocket_client, add_websocket_client.
      destruct (existsb _ _); simpl; [reflexivity|].
      rewrite filter_app. simpl.
      rewrite (proj2 (client_eqb_spec c c) eq_refl). simpl. apply app_nil_r.
    + split.
      * intros d Hd. rewrite in_clients_add, in_clients_remove. tauto.
      * intros H. split; [apply add_client_nodup, H|].
        unfold remove_websocket_client. simpl. apply NoDup_filter, H.
Qed.

(** X14: [start_animation] does nothing to a renderer that is active or
    disabled; otherwise it makes it active with [current_time] 0 and
    [start_time] the current clock, and loads the song's notes (an empty
    song keeps the buffer as it was); if loading raises (a
    [ticks_per_beat] of 0 with a note to load) the renderer is left active
    with an empty buffer and no new thread. Starting twice is starting
    once. *)
Theorem start_animation_spec src now r :
  ((is_active r = true \/ enabled (settings r) = false) ->
   start_animation src now r = (r, false))
  /\ (is_active r = false -> enabled (settings r) = true ->
      let (r', raised) := start_animation src now r in
      is_active r' = true /\ current_time r' = 0%Q /\ start_time r' = now
      /\ settings r' = settings r /\ websocket_clients r' = websocket_clients r
      /\ delivered r' = delivered r
      /\ (raised = false ->
          has_animation_thread r' = true
          /\ notes_buffer r' = load_notes_from_midi (src_song_tempo src)
                (src_ticks_per_beat src) (src_song_tracks src) (notes_buffer r))
      /\ (raised = true -> notes_buffer r' = [] /\ src_ticks_per_beat src = 0))
  /\ (forall now', start_animation src now' (fst (start_animation src now r))
                   = (fst (start_animation src now r), false)).
Proof.
  unfold start_animation. split; [|split].
  - intros [H|H]; rewrite H; [reflexivity|now rewrite orb_true_r].
  - intros Ha He. rewrite Ha, He. simpl.
    destruct (load_raises src) eqn:Hl; simpl.
    + repeat split; try discriminate. unfold load_raises in Hl.
      apply andb_true_iff in Hl as [Hl _]. now apply Z.eqb_eq.
    + repeat split; discriminate.
  - intros now'. destruct (is_active r || negb (enabled (settings r))) eqn:E.
    + simpl. now rewrite E.
    + destruct (load_raises src); reflexivity.
Qed.

Lemma broadcast_fields d r :
  let r' := broadcast_to_clients d r in
  is_active r' = is_active r /\ has_animation_thread r' = has_animation_thread r
  /\ notes_buffer r' = notes_buffer r /\ current_time r' = current_time r
  /\ start_time r' = start_time r /\ settings r' = settings r
  /\ websocket_clients r' = filter client_ok (websocket_clients r)
  /\ delivered r' = delivered r
       ++ map (fun c => (client_id c, d)) (filter client_ok (websocket_clients r)).
Proof.
  unfold broadcast_to_clients. destruct (websocket_clients r) eqn:E; simpl;
    rewrite ?E, ?app_nil_r; repeat split; reflexivity.
Qed.


Section RendererInvariant.

Let inv (r : Renderer) : Prop :=
  (is_active r = false -> notes_buffer r = []) /\ NoDup (websocket_clients r).

Lemma broadcast_inv d r : inv r -> inv (broadcast_to_clients d r).
Proof.
  intros [H1 H2]. destruct (broadcast_fields d r) as (B1 & _ & B3 & _ & _ & _ & B7 & _).
  split; [rewrite B1, B3; exact H1|rewrite B7; apply NoDup_filter, H2].
Qed.

Lemma stop_inv r : inv r -> inv (stop_animation r).
Proof.
  intros [_ H2]. unfold stop_animation. apply broadcast_inv.
  split; [reflexivity|exact H2].
Qed.

Lemma start_inv src now r : inv r -> inv (fst (start_animation src now r)).
Proof.
  intros [H1 H2]. unfold start_animation.
  destruct (is_active r || negb (enabled (settings r))); [split; assumption|].
  destruct (load_raises src); (split; [discriminate|exact H2]).
Qed.

Lemma apply_op_inv src op r : inv r -> inv (apply_op src op r).
Proof.
  intros Hi. destruct op as [c|c|now| |p|u now|now]; simpl.
  - destruct Hi as [H1 H2]. split; [|apply add_client_nodup, H2].
    unfold add_websocket_client. destruct (existsb _ _); exact H1.
  - destruct Hi as [H1 H2]. split; [exact H1|].
    unfold remove_websocket_client. simpl. apply NoDup_filter, H2.
  - apply start_inv, Hi.
  - apply stop_inv, Hi.
  - unfold sync_with_learn_midi. destruct (is_active r) eqn:Ha; [|exact Hi].
    destruct Hi as [_ H2]. split; [simpl; discriminate|exact H2].
  - unfold update_settings.
    assert (Hs : inv (set_settings (merge_settings u (settings r)) r))
      by (destruct Hi; split; assumption).
    destruct (is_active (set_settings _ r)); [|exact Hs].
    pose proof (stop_inv _ Hs) as Hst.
    destruct (enabled _); [apply start_inv, Hst|exact Hst].
  - unfold animation_step. destruct (is_active r) eqn:Ha; [|exact Hi].
    destruct Hi as [_ H2].
    assert (Hr : inv (mkRenderer true (has_animation_thread r) (notes_buffer r)
               ((now - start_time r) * speed (settings r))%Q (start_time r)
               (settings r) (websocket_clients r) (delivered r)))
      by (split; [simpl; discriminate|exact H2]).
    destruct (generate_frame_data _); [apply broadcast_inv, Hr|exact Hr].
Qed.

(** X16: on every renderer reached from [__init__] by any sequence of the
    public operations (client add/remove, start, stop, sync, settings
    update) and animation frames, a stopped renderer has an empty note
    buffer and no client is held twice. *)
Theorem renderer_reachable_invariant src st ops :
  let r := run_ops src ops (init_renderer st) in
  (is_active r = false -> notes_buffer r = []) /\ NoDup (websocket_clients r).
Proof.
  unfold run_ops. cut (forall r, inv r -> inv (fold_left (fun r op => apply_op src op r) ops r)).
  - intros H. apply H. split; [reflexivity|constructor].
  - induction ops as [|op ops IH]; intros r Hr; simpl; [exact Hr|].
    apply IH, apply_op_inv, Hr.
Qed.

End RendererInvariant.

Section LoadNotesShape.
Local Open Scope nat_scope.

Let nd_key (nd : NoteData) : Z * Z * Z :=
  (nd_midi_note nd, nd_channel nd, nd_velocity nd).

Let msg_key (m : Msg) : Z * Z * Z := (note m, channel m, velocity m).

Let loaded_on (m : Msg) : bool :=
  negb (is_meta m) && msgtype_eqb (mtype m) NoteOn && (velocity m >? 0)%Z.

Let lastn {A} (n : nat) (l : list A) : list A := skipn (length l - n)%nat l.

Let hand_ok (nd : NoteData) : Prop :=
  nd_hand nd = (if (nd_channel nd =? 1)%Z then HandRight else HandLeft).

Lemma lastn_snoc {A} (n : nat) (l : list A) (y : A) :
  (0 < n)%nat -> lastn n (lastn n l ++ [y]) = lastn n (l ++ [y]).
Proof.
  intros Hn. unfold lastn. rewrite !length_app, length_skipn. cbn [length].
  destruct (Nat.le_gt_cases (length l) n) as [Hle|Hgt].
  - replace (length l - n) with 0 by lia. cbn [skipn]. rewrite Nat.sub_0_r. reflexivity.
  - replace (length l - (length l - n) + 1 - n) with 1 by lia.
    replace (length l + 1 - n) with (1 + (length l - n)) by lia.
    rewrite !skipn_app.
    replace (1 + (length l - n) - length l) with 0 by lia.
    replace (1 - length (skipn (length l - n) l)) with 0
      by (rewrite length_skipn; lia).
    rewrite skipn_skipn. reflexivity.
Qed.

Lemma deque_append_1000 (b : list NoteData) (x : NoteData) :
  (length b <= 1000)%nat ->
  (length (deque_append 1000 b x) <= 1000)%nat
  /\ map nd_key (deque_append 1000 b x) = lastn 1000 (map nd_key b ++ [nd_key x]).
Proof.
  intros Hb. unfold deque_append, lastn. rewrite length_app, length_map. cbn [length].
  destruct (Nat.ltb_spec (length b) 1000) as [Hlt|Hge].
  - rewrite length_app. cbn [length].
    replace (length b + 1 - 1000) with 0 by lia. rewrite map_app. split; [lia|reflexivity].
  - assert (length b = 1000) by lia.
    replace (length b + 1 - 1000) with 1 by lia.
    destruct b as [|d b]; [cbn in *; lia|]. cbn [tl].
    rewrite length_app. cbn [length] in *. rewrite map_app. split; [lia|reflexivity].
Qed.

Lemma load_notes_loop_shape tempo tpb song : forall ct b acc,
  (length b <= 1000)%nat -> map nd_key b = lastn 1000 acc -> Forall hand_ok b ->
  (length (load_notes_loop tempo tpb ct b song) <= 1000)%nat
  /\ map nd_key (load_notes_loop tempo tpb ct b song)
     = lastn 1000 (acc ++ map msg_key (filter loaded_on song))
  /\ Forall hand_ok (load_notes_loop tempo tpb ct b song).
Proof.
  induction song as [|m ms IH]; intros ct b acc Hl Hk Hh.
  - cbn. rewrite app_nil_r. auto.
  - cbn [load_notes_loop filter]. unfold loaded_on at 1.
    destruct (is_meta m); cbn [negb andb]; [apply IH; assumption|].
    destruct (msgtype_eqb (mtype m) NoteOn && (velocity m >? 0)%Z) eqn:Hon.
    + set (x := mkNoteData _ _ _ _ _).
      destruct (deque_append_1000 b x Hl) as [Hl' Hk'].
      replace (acc ++ map msg_key (m :: filter loaded_on ms))
        with ((acc ++ [msg_key m]) ++ map msg_key (filter loaded_on ms))
        by (rewrite <- app_assoc; reflexivity).
      apply IH; [exact Hl'| |].
      * rewrite Hk', Hk. apply lastn_snoc. lia.
      * unfold deque_append. destruct (Nat.ltb _ _).
        -- apply Forall_app; split; [exact Hh|constructor; [reflexivity|constructor]].
        -- apply Forall_app; split; [|constructor; [reflexivity|constructor]].
           destruct b; [constructor|inversion Hh; assumption].
    + apply IH; assumption.
Qed.

(** X17: with [ticks_per_beat <> 0] (at 0 line 140 raises
    [ZeroDivisionError] on the first loaded note), loading a non-empty
    song replaces the old buffer by the note-ons
    (velocity > 0) of its non-meta messages, in song order, of which the
    [deque(maxlen=1000)] keeps the last 1000: the buffer's notes, channels
    and velocities are those of the last [min 1000 n] of the [n] note-ons,
    and each note's hand is right exactly when its channel is 1. *)
Theorem load_notes_shape tempo tpb song buf :
  tpb <> 0%Z -> song <> [] ->
  let ons := filter (fun m => negb (is_meta m) && msgtype_eqb (mtype m) NoteOn
                              && (velocity m >? 0)%Z) song in
  let out := load_notes_from_midi tempo tpb song buf in
  length out = Nat.min 1000 (length ons)
  /\ map (fun nd => (nd_midi_note nd, nd_channel nd, nd_velocity nd)) out
     = skipn (length ons - 1000)%nat (map (fun m => (note m, channel m, velocity m)) ons)
  /\ Forall (fun nd => nd_hand nd = (if (nd_channel nd =? 1)%Z then HandRight else HandLeft)) out.
Proof.
  intros _ Hne ons out. subst ons out. unfold load_notes_from_midi.
  destruct song as [|m0 ms0]; [contradiction|].
  destruct (load_notes_loop_shape tempo tpb (m0 :: ms0) 0 [] [] ltac:(cbn; lia)
              eq_refl (Forall_nil _)) as (_ & Hk & Hh).
  change (fun m => negb (is_meta m) && msgtype_eqb (mtype m) NoteOn && (velocity m >? 0)%Z)
    with loaded_on.
  change (fun nd => (nd_midi_note nd, nd_channel nd, nd_velocity nd)) with nd_key.
  change (fun m => (note m, channel m, velocity m)) with msg_key.
  cbn [app] in Hk. unfold lastn in Hk. rewrite length_map in Hk.
  split; [|split; [exact Hk|exact Hh]].
  rewrite <- (length_map nd_key), Hk, length_skipn, length_map. lia.
Qed.

End LoadNotesShape.

Lemma load_notes_shape_witness :
  let song := [mkMsg true OtherType 0 0 0 480; on 60 1 0; on 48 2 0] in
  480 <> 0 /\ song <> []
  /\ (let ons := filter (fun m => negb (is_meta m) && msgtype_eqb (mtype m) NoteOn
                                  && (velocity m >? 0)) song in
      let out := load_notes_from_midi 500000 480 song [] in
      length out = Nat.min 1000 (length ons)
      /\ map (fun nd => (nd_midi_note nd, nd_channel nd, nd_velocity nd)) out
         = skipn (length ons - 1000)%nat (map (fun m => (note m, channel m, velocity m)) ons)
      /\ Forall (fun nd => nd_hand nd = (if (nd_channel nd =? 1)%Z then HandRight else HandLeft)) out).
Proof.
  intros song. assert (Ht : 480 <> 0) by discriminate.
  assert (Hne : song <> []) by discriminate.
  split; [exact Ht|]. split; [exact Hne|exact (load_notes_shape 500000 480 song [] Ht Hne)].
Defined.
